(** * fact-checker: TTL cache, retry executor and rate limiter

A shallow embedding of the three infrastructure primitives of the
repository:

- [src/utils/cache.ts]   (class [Cache]),
- [src/utils/retry.ts]   (function [withRetry]),
- [src/app/api/fact-check/route.ts] (function [isRateLimited] and the
  admission prefix of [POST]).

Conventions of the embedding.

- [Date.now()] is an explicit argument [now : Z] (integral
  milliseconds); every function that reads the clock takes the value it
  reads.
- A JavaScript [Map<string, X>] is a [gmap string X]; a method that
  mutates the receiver returns the new receiver.
- [T | null] is [option T], [None] standing for [null].
- The numbers of the retry configuration ([maxRetries], [initialDelay],
  [maxDelay], [backoffFactor]) are exact rationals [Q], so that a
  fractional factor such as 1.5 or 0.5, or a budget such as 2.5, can be
  written; rounding, infinities and NaN of IEEE doubles are outside the
  model.  The loop counter [attempt] only takes integral values and is a
  [Z]. *)

From Stdlib Require Import ZArith QArith Qminmax Qpower Qround Lia Lqa List.
From Stdlib Require Import Sorted Ascii.
From stdpp Require Import base option gmap strings list.

(* ===================================================================== *)
(** ** src/utils/cache.ts *)
(* ===================================================================== *)

Module Cache.
Section WithValue.
Context {T : Type}.
Local Open Scope Z_scope.

(** [type CacheEntry<T> = { value: T; timestamp: number }] *)
Record CacheEntry : Type := { value : T; timestamp : Z }.

(** [class Cache<T>]: the private fields [cache] and [ttl]. *)
Record Cache : Type := { cache : gmap string CacheEntry; ttl : Z }.

(** [constructor(ttlMinutes = 60)] *)
Definition new_Cache (ttlMinutes : option Z) : Cache :=
  let ttlMinutes := default 60 ttlMinutes in
  {| cache := ∅; ttl := ttlMinutes * 60 * 1000 |}.

(** [set(key, value)]: [Date.now()] is read once, as [now]. *)
Definition set (key : string) (v : T) (now : Z) (this : Cache) : Cache :=
  {| cache := <[key := {| value := v; timestamp := now |}]> (cache this);
     ttl := ttl this |}.

(** [get(key)]: the result and the receiver afterwards (an expired entry
    is deleted by the read). *)
Definition get (key : string) (now : Z) (this : Cache) : option T * Cache :=
  match cache this !! key with
  | None => (None, this)
  | Some entry =>
      if now - timestamp entry >? ttl this
      then (None, {| cache := delete key (cache this); ttl := ttl this |})
      else (Some (value entry), this)
  end.

(** [clear()] *)
Definition clear (this : Cache) : Cache :=
  {| cache := ∅; ttl := ttl this |}.

(** A method call on a cache, for histories of calls. *)
Inductive call : Type :=
| CallSet (key : string) (v : T)
| CallGet (key : string)
| CallClear.

(** One call at clock value [now]. *)
Definition step (this : Cache) (c : call * Z) : Cache :=
  match c with
  | (CallSet key v, now) => set key v now this
  | (CallGet key, now) => snd (get key now this)
  | (CallClear, _) => clear this
  end.

(** A history of calls, oldest first. *)
Definition run (h : list (call * Z)) (this : Cache) : Cache :=
  fold_left step h this.

(** A call that leaves a fresh entry under [key] readable at time [t']:
    it neither sets [key] nor clears, and a read of [key] happens no
    later than [t']. *)
Definition quiet (key : string) (t' : Z) (c : call * Z) : Prop :=
  match c with
  | (CallSet key' _, _) => key' ≠ key
  | (CallGet key', now) => key' = key → now ≤ t'
  | (CallClear, _) => False
  end.

(** A call that cannot create an entry under [key]. *)
Definition no_set (key : string) (c : call * Z) : Prop :=
  match c with
  | (CallSet key' _, _) => key' ≠ key
  | _ => True
  end.

End WithValue.
Arguments CacheEntry : clear implicits.
Arguments Cache : clear implicits.
Arguments call : clear implicits.
End Cache.

(* ===================================================================== *)
(** ** src/utils/retry.ts *)
(* ===================================================================== *)

Module Retry.

(** [interface RetryOptions]: every field is optional. *)
Record RetryOptions : Type := {
  maxRetries : option Q;
  initialDelay : option Q;
  maxDelay : option Q;
  backoffFactor : option Q
}.

(** [options: RetryOptions = {}] *)
Definition no_options : RetryOptions :=
  {| maxRetries := None; initialDelay := None;
     maxDelay := None; backoffFactor := None |}.

(** [const { maxRetries = 3, initialDelay = 1000, maxDelay = 10000,
    backoffFactor = 2 } = options]: a field that is absent takes its
    default. *)
Definition maxRetries_of (options : RetryOptions) : Q :=
  default 3%Q (maxRetries options).
Definition initialDelay_of (options : RetryOptions) : Q :=
  default 1000%Q (initialDelay options).
Definition maxDelay_of (options : RetryOptions) : Q :=
  default 10000%Q (maxDelay options).
Definition backoffFactor_of (options : RetryOptions) : Q :=
  default 2%Q (backoffFactor options).

(** What an execution of [withRetry] does that an observer can see: it
    invokes [fn], and it suspends on [setTimeout(resolve, delay)]. *)
Inductive event : Type :=
| Invoke
| Sleep (delay : Q).

(** The number of invocations of [fn] in a trace. *)
Fixpoint invocations (tr : list event) : nat :=
  match tr with
  | [] => O
  | Invoke :: tr' => S (invocations tr')
  | Sleep _ :: tr' => invocations tr'
  end.

(** The delays waited in a trace, in order. *)
Fixpoint delays (tr : list event) : list Q :=
  match tr with
  | [] => []
  | Invoke :: tr' => delays tr'
  | Sleep d :: tr' => d :: delays tr'
  end.

(** [delay = Math.min(delay * backoffFactor, maxDelay)] *)
Definition next_delay (backoffFactor maxDelay delay : Q) : Q :=
  Qmin (delay * backoffFactor) maxDelay.

(** The first [n] values taken by the variable [delay], from [delay]. *)
Fixpoint delay_values (backoffFactor maxDelay : Q) (n : nat) (delay : Q)
  : list Q :=
  match n with
  | O => []
  | S n' =>
      delay :: delay_values backoffFactor maxDelay n'
                 (next_delay backoffFactor maxDelay delay)
  end.

(** The value of the variable [delay] after [n] updates, from [delay]. *)
Fixpoint delay_after (backoffFactor maxDelay : Q) (n : nat) (delay : Q)
  : Q :=
  match n with
  | O => delay
  | S n' =>
      delay_after backoffFactor maxDelay n'
        (next_delay backoffFactor maxDelay delay)
  end.

(** The sequence of the specification, in closed form:
    [initialDelay, min(initialDelay*backoffFactor, maxDelay),
     min(initialDelay*backoffFactor^2, maxDelay), ...] ([n] terms). *)
Definition spec_delay (initialDelay backoffFactor maxDelay : Q) (i : nat)
  : Q :=
  match i with
  | O => initialDelay
  | S _ => Qmin (initialDelay * backoffFactor ^ Z.of_nat i) maxDelay
  end.

Definition spec_delays (initialDelay backoffFactor maxDelay : Q) (n : nat)
  : list Q :=
  map (spec_delay initialDelay backoffFactor maxDelay) (seq 0 n).

Section WithAction.
(** The action [fn: () => Promise<T>] runs against the rest of the world,
    of state [W]: an invocation either rejects with an [E] or resolves
    with a [T], and leaves a new state.  [withRetry] touches the world
    through [fn] only, so whatever else happens between two invocations
    is part of the state the next invocation finds; with [W := nat]
    counting the invocations, any sequence of outcomes is an action. *)
Context {W E T : Type}.
Variable fn : W → (E + T) * W.

(** How a call of [withRetry] settles: it returns a value or throws
    [lastError], which is [null] until an attempt has failed. *)
Inductive settled : Type :=
| Return (v : T)
| Throw (lastError : option E).

Record execution : Type := {
  result : settled;
  trace : list event;
  world : W
}.

(** The state of the world after [n] invocations of [fn]. *)
Fixpoint world_after (n : nat) (w : W) : W :=
  match n with
  | O => w
  | S n' => world_after n' (snd (fn w))
  end.

Section Loop.
Variables maxRetries maxDelay backoffFactor : Q.

(** The [for] loop with the [throw] that follows it, from the test
    [attempt < maxRetries] on.  [fuel] bounds the iterations; [None] is
    returned only when it runs out. *)
Fixpoint retry_loop (fuel : nat) (attempt : Z) (delay : Q)
    (lastError : option E) (w : W) : option execution :=
  match fuel with
  | O => None
  | S fuel' =>
      if Qlt_le_dec (inject_Z attempt) maxRetries then
        match fn w with
        | (inr v, w') =>
            Some {| result := Return v; trace := [Invoke]; world := w' |}
        | (inl error, w') =>
            let lastError := Some error in
            if Qeq_dec (inject_Z attempt) (maxRetries - 1) then
              Some {| result := Throw lastError; trace := [Invoke];
                      world := w' |}
            else
              match retry_loop fuel' (attempt + 1)%Z
                      (next_delay backoffFactor maxDelay delay)
                      lastError w' with
              | Some x =>
                  Some {| result := result x;
                          trace := Invoke :: Sleep delay :: trace x;
                          world := world x |}
              | None => None
              end
        end
      else
        Some {| result := Throw lastError; trace := []; world := w |}
  end.
End Loop.

(** [withRetry(fn, options)]: the body of the loop runs at most
    [ceil(maxRetries)] times and the loop is left once more by its test. *)
Definition withRetry (options : RetryOptions) (w : W) : option execution :=
  let maxRetries := maxRetries_of options in
  let initialDelay := initialDelay_of options in
  let maxDelay := maxDelay_of options in
  let backoffFactor := backoffFactor_of options in
  let lastError : option E := None in
  let delay := initialDelay in
  retry_loop maxRetries maxDelay backoffFactor
    (S (Z.to_nat (Qceiling maxRetries))) 0%Z delay lastError w.

(** An action that rejects whatever the state of the world. *)
Definition always_fails : Prop :=
  ∀ w, ∃ e, fst (fn w) = inl e.

(** The action rejects on each of its first [n] invocations from [w]. *)
Definition fails_first (n : nat) (w : W) : Prop :=
  ∀ i, (i < n)%nat → ∃ e, fst (fn (world_after i w)) = inl e.

(** The events of [n] failed attempts, none of them the last permitted
    one, the first of them waiting [delay]. *)
Fixpoint failed_attempts (backoffFactor maxDelay : Q) (n : nat)
    (delay : Q) : list event :=
  match n with
  | O => []
  | S n' =>
      Invoke :: Sleep delay ::
        failed_attempts backoffFactor maxDelay n'
          (next_delay backoffFactor maxDelay delay)
  end.

(** An execution that goes on after the events [pre]. *)
Definition after (pre : list event) (o : option execution)
  : option execution :=
  match o with
  | Some x =>
      Some {| result := result x; trace := pre ++ trace x;
              world := world x |}
  | None => None
  end.




End WithAction.
Arguments settled : clear implicits.
Arguments execution : clear implicits.
Arguments Throw {E T} lastError.
Arguments Return {E T} v.
End Retry.

(* ===================================================================== *)
(** ** src/app/api/fact-check/route.ts *)
(* ===================================================================== *)

Module Route.
Local Open Scope Z_scope.

(** Rate limiting configuration *)
Definition RATE_LIMIT_WINDOW : Z := 60 * 1000.
Definition MAX_REQUESTS_PER_WINDOW : Z := 10.

(** [requests.filter((time) => time > now - RATE_LIMIT_WINDOW)] *)
Definition recent (now : Z) (requests : list Z) : list Z :=
  List.filter (λ time, time >? now - RATE_LIMIT_WINDOW) requests.

(** [isRateLimited(ip)]: the verdict and [requestLog] afterwards. *)
Definition isRateLimited (ip : string) (now : Z)
    (requestLog : gmap string (list Z)) : bool * gmap string (list Z) :=
  let requests := default [] (requestLog !! ip) in
  let recentRequests := recent now requests in
  let requestLog := <[ip := recentRequests]> requestLog in
  (Z.of_nat (length recentRequests) >=? MAX_REQUESTS_PER_WINDOW, requestLog).

(** "Log the request" in [POST]: [requests.push(Date.now())] on the
    array held by the log (or on a fresh one), then [requestLog.set]. *)
Definition logRequest (ip : string) (now : Z)
    (requestLog : gmap string (list Z)) : gmap string (list Z) :=
  let requests := default [] (requestLog !! ip) in
  let requests := requests ++ [now] in
  <[ip := requests]> requestLog.

(** How [POST] goes on after its admission prefix. *)
Inductive admission : Type :=
| TooManyRequests   (* status 429 *)
| Accepted.

(** The admission prefix of [POST] for the identity [ip]; the clock is
    read once in [isRateLimited] ([now0]) and once for the record
    ([now1]). *)
Definition POST_admission (ip : string) (now0 now1 : Z)
    (requestLog : gmap string (list Z))
  : admission * gmap string (list Z) :=
  let '(limited, requestLog) := isRateLimited ip now0 requestLog in
  if limited then (TooManyRequests, requestLog)
  else (Accepted, logRequest ip now1 requestLog).

End Route.

(* ===================================================================== *)
(** ** Concrete actions, configurations and logs *)
(* ===================================================================== *)

Module Sample.
Import Retry.

(** An action that rejects on every invocation; the world counts the
    invocations and the error raised is the number of earlier ones. *)
Definition failing (w : nat) : (nat + string) * nat := (inl w, S w).

(** An action that rejects on its first [k] invocations and resolves with
    ["ok"] from then on. *)
Definition flaky (k : nat) (w : nat) : (nat + string) * nat :=
  if (w <? k)%nat then (inl w, S w) else (inr "ok"%string, S w).

(** [{ maxRetries: 0 }] *)
Definition no_budget : RetryOptions :=
  {| maxRetries := Some 0%Q; initialDelay := None;
     maxDelay := None; backoffFactor := None |}.

(** [{ maxRetries: 4, initialDelay: 100, maxDelay: 10, backoffFactor: 0.5 }] *)
Definition decaying : RetryOptions :=
  {| maxRetries := Some 4%Q; initialDelay := Some 100%Q;
     maxDelay := Some 10%Q; backoffFactor := Some (1 # 2)%Q |}.


(** [{ maxRetries: 2.5 }] *)
Definition fractional_budget : RetryOptions :=
  {| maxRetries := Some (5 # 2)%Q; initialDelay := None;
     maxDelay := None; backoffFactor := None |}.


(** The options of [performFactCheck] in route.ts. *)
Definition fact_check_options : RetryOptions :=
  {| maxRetries := Some 3%Q; initialDelay := Some 1000%Q;
     maxDelay := Some 5000%Q; backoffFactor := Some 2%Q |}.

(** A request log with ten requests of ["10.0.0.1"] at times 1000, 2000,
    ..., 10000 and one of ["10.0.0.2"]. *)
Definition busy_log : gmap string (list Z) :=
  <["10.0.0.1"%string :=
      [1000; 2000; 3000; 4000; 5000; 6000; 7000; 8000; 9000; 10000]%Z]>
    (<["10.0.0.2"%string := [500%Z]]> ∅).

(** A cache of integer lists with a TTL of one minute. *)
Definition one_minute : Cache.Cache (list Z) := Cache.new_Cache (Some 1%Z).

(** Calls that leave the key ["abc"] alone but for one read. *)
Definition history : list (Cache.call (list Z) * Z) :=
  [(Cache.CallGet "abc"%string, 30000%Z);
   (Cache.CallSet "xyz"%string [], 40000%Z);
   (Cache.CallGet "xyz"%string, 200000%Z)].

End Sample.

(* ===================================================================== *)
(** ** Histories of calls and of requests *)
(* ===================================================================== *)

Module History.
Section WithValue.
Context {T : Type}.

(** A call that does not name [key] and does not clear the cache. *)
Definition untouched (key : string) (c : Cache.call T * Z) : Prop :=
  match c with
  | (Cache.CallSet key' _, _) => key' ≠ key
  | (Cache.CallGet key', _) => key' ≠ key
  | (Cache.CallClear, _) => False
  end.

(** The number of [set] calls in a history. *)
Fixpoint sets (h : list (Cache.call T * Z)) : nat :=
  match h with
  | [] => O
  | (Cache.CallSet _ _, _) :: h' => S (sets h')
  | _ :: h' => sets h'
  end.

End WithValue.

(** The requests of one identity handled by [POST] one after the other;
    each request comes with the two clock values its admission reads, in
    [isRateLimited] and for the record.  The verdicts, oldest first, and
    the log afterwards. *)
Fixpoint admissions (ip : string) (requests : list (Z * Z))
    (requestLog : gmap string (list Z))
  : list Route.admission * gmap string (list Z) :=
  match requests with
  | [] => ([], requestLog)
  | (now0, now1) :: requests' =>
      let '(verdict, requestLog) :=
        Route.POST_admission ip now0 now1 requestLog in
      let '(verdicts, requestLog) := admissions ip requests' requestLog in
      (verdict :: verdicts, requestLog)
  end.

(** A sliding window that forgets nothing: [accepted] holds the record
    time of every request accepted so far, and a request read at [now0] is
    refused when ten of them are newer than [now0 - 60000]. *)
Fixpoint sliding_window (accepted : list Z) (requests : list (Z * Z))
  : list Route.admission :=
  match requests with
  | [] => []
  | (now0, now1) :: requests' =>
      if (10 <=? length (filter (λ t, now0 - 60000 < t)%Z accepted))%nat
      then Route.TooManyRequests :: sliding_window accepted requests'
      else Route.Accepted :: sliding_window (accepted ++ [now1]) requests'
  end.

(** The clock never goes back over a sequence of requests that starts no
    earlier than [from]. *)
Fixpoint monotone (from : Z) (requests : list (Z * Z)) : Prop :=
  match requests with
  | [] => True
  | (now0, now1) :: requests' =>
      (from ≤ now0)%Z ∧ (now0 ≤ now1)%Z ∧ monotone now1 requests'
  end.

(** The sum of a list of delays. *)
Definition total (ds : list Q) : Q := fold_right Qplus 0%Q ds.

End History.

(* ===================================================================== *)
(** ** JavaScript values and strings *)
(* ===================================================================== *)

(** What [JSON.parse] and [req.json()] return.  An object holds its
    members in the order they were written; a later member of the same
    name replaces an earlier one. *)
Module Json.
#[local] Set Warnings "-register-all".

Inductive value : Type :=
| JNull
| JBool (b : bool)
| JNumber (n : Q)
| JString (s : string)
| JArray (items : list value)
| JObject (members : list (string * value)).

(** The member called [key], if any. *)
Fixpoint member (key : string) (members : list (string * value))
  : option value :=
  match members with
  | [] => None
  | (k, v) :: members' =>
      match member key members' with
      | Some v' => Some v'
      | None => if String.eqb k key then Some v else None
      end
  end.

(** [obj.key] for the names this program reads ([text], [result],
    [explanation], [sources], [error]; none of them is [length] or an
    index): [None] when reading throws a TypeError, [Some None] for
    [undefined]. *)
Definition prop (obj : value) (key : string) : option (option value) :=
  match obj with
  | JNull => None
  | JObject members => Some (member key members)
  | _ => Some None
  end.

(** [typeof v], [None] standing for [undefined]. *)
Definition typeof (v : option value) : string :=
  match v with
  | None => "undefined"
  | Some JNull => "object"
  | Some (JBool _) => "boolean"
  | Some (JNumber _) => "number"
  | Some (JString _) => "string"
  | Some (JArray _) => "object"
  | Some (JObject _) => "object"
  end.

(** [Array.isArray(v)] *)
Definition isArray (v : option value) : bool :=
  match v with
  | Some (JArray _) => true
  | _ => false
  end.

(** [!v] is false *)
Definition truthy (v : option value) : bool :=
  match v with
  | None => false
  | Some JNull => false
  | Some (JBool b) => b
  | Some (JNumber n) => negb (Qeq_bool n 0)
  | Some (JString s) => negb (String.eqb s "")
  | Some (JArray _) => true
  | Some (JObject _) => true
  end.

End Json.

(** The string methods the program calls.  A string is a sequence of
    characters; positions are integers as in JavaScript. *)
Module Text.
Local Open Scope Z_scope.

(** [s.length] *)
Definition len (s : string) : Z := Z.of_nat (String.length s).

(** A relative position made absolute and clamped to [0 .. len], as
    [slice] does. *)
Definition absolute (s : string) (i : Z) : Z :=
  if i <? 0 then Z.max (len s + i) 0 else Z.min i (len s).

(** [s.slice(start, end)] *)
Definition slice (s : string) (start end_ : Z) : string :=
  let from := absolute s start in
  let to := absolute s end_ in
  String.substring (Z.to_nat from) (Z.to_nat (Z.max (to - from) 0)) s.

(** [s.indexOf(searchString, position)]: the position is clamped to
    [0 .. len]; [-1] when there is no occurrence from there on. *)
Definition indexOf (s searchString : string) (position : Z) : Z :=
  let start := Z.min (Z.max position 0) (len s) in
  match String.index (Z.to_nat start) searchString s with
  | Some k => Z.of_nat k
  | None => -1
  end.

(** The suffix of [s] that starts at its first ["["]. *)
Fixpoint from_open (s : string) : option string :=
  match s with
  | EmptyString => None
  | String c s' => if Ascii.eqb c "[" then Some s else from_open s'
  end.

(** The prefix of [s] that ends at its last ["]"]. *)
Fixpoint upto_close (s : string) : option string :=
  match s with
  | EmptyString => None
  | String c s' =>
      match upto_close s' with
      | Some p => Some (String c p)
      | None => if Ascii.eqb c "]" then Some (String c EmptyString) else None
      end
  end.

(** [s.match(/\[[\s\S]*\]/)]: element 0 of the match, or [None] for
    [null].  The match starts at the first ["["] and, the star being
    greedy over every character, ends at the last ["]"] after it. *)
Definition match_array (s : string) : option string :=
  match from_open s with
  | Some (String c rest) => String c <$> upto_close rest
  | _ => None
  end.

End Text.

(* ===================================================================== *)
(** ** src/app/api/fact-check/route.ts, the rest *)
(* ===================================================================== *)

Module FactCheck.
Import Json.

(** What can be thrown: an [Error] with its message, or any other value. *)
Inductive thrown (X : Type) : Type :=
| Error (message : string)
| Thrown (x : X).
Arguments Error {X} message.
Arguments Thrown {X} x.

(** The literals of [result] in [isValidFactCheckResult]. *)
Definition VERDICTS : list string :=
  ["correct"; "incorrect"; "unverifiable"; "debatable"; "not-applicable"]%string.

(** [VERDICTS.includes(v)] *)
Definition includes (l : list string) (v : option value) : bool :=
  match v with
  | Some (JString s) => bool_decide (s ∈ l)
  | _ => false
  end.

(** [sources.every((source) => typeof source === "string")], for
    [sources] an array. *)
Definition every_string (sources : option value) : bool :=
  match sources with
  | Some (JArray items) =>
      forallb (λ source, String.eqb (typeof (Some source)) "string") items
  | _ => false
  end.

(** [isValidFactCheckResult(obj)]; [None] when it throws (reading a
    property of [null]).  The conjunction is evaluated left to right and
    stops at the first false conjunct. *)
Definition isValidFactCheckResult (obj : value) : option bool :=
  if negb (String.eqb (typeof (Some obj)) "object") then Some false else
  text ← prop obj "text";
  if negb (String.eqb (typeof text) "string") then Some false else
  result ← prop obj "result";
  if negb (includes VERDICTS result) then Some false else
  explanation ← prop obj "explanation";
  if negb (String.eqb (typeof explanation) "string") then Some false else
  sources ← prop obj "sources";
  if negb (isArray sources) then Some false else
  Some (every_string sources).

(** [parsedJson.filter(isValidFactCheckResult)]; [None] when the
    predicate throws on an element. *)
Fixpoint filter_valid (items : list value) : option (list value) :=
  match items with
  | [] => Some []
  | item :: items' =>
      keep ← isValidFactCheckResult item;
      rest ← filter_valid items';
      Some (if (keep : bool) then item :: rest else rest)
  end.

(** The shape [isValidFactCheckResult] asks for, as a proposition. *)
Definition well_formed (obj : value) : Prop :=
  ∃ members text result explanation sources,
    obj = JObject members
    ∧ member "text" members = Some (JString text)
    ∧ member "result" members = Some (JString result)
    ∧ result ∈ VERDICTS
    ∧ member "explanation" members = Some (JString explanation)
    ∧ member "sources" members = Some (JArray (JString <$> sources)).

(** The options [performFactCheck] passes to [withRetry]. *)
Definition retry_options : Retry.RetryOptions :=
  {| Retry.maxRetries := Some 3%Q; Retry.initialDelay := Some 1000%Q;
     Retry.maxDelay := Some 5000%Q; Retry.backoffFactor := Some 2%Q |}.

(** [NextResponse.json(body, { status })] *)
Record response : Type := { status : Z; body : value }.

(** A request as [POST] reads it: the header [x-forwarded-for] ([None]
    when [headers.get] returns [null]) and how [req.json()] settles. *)
Record request (X : Type) : Type := {
  x_forwarded_for : option string;
  json : thrown X + value
}.
Arguments x_forwarded_for {X}.
Arguments json {X}.

(** The values [Date.now()] returns to one run of [POST]: in
    [isRateLimited], for the record of the request, in [Cache.get] and
    in [Cache.set]. *)
Record clock : Type := { at_check : Z; at_record : Z; at_get : Z; at_set : Z }.

Section WithProvider.
(** [generateText] is the call of the language model: it runs against
    the provider, of state [W], with the prompt built from [text], and
    rejects or resolves with the text of the answer.  [JSON_parse] is
    [JSON.parse], [None] when it throws.  [TypeError_null] is what the
    engine throws when [null] is destructured.  [console.log] and
    [console.error] are left out. *)
Context {W X : Type}.
Variable generateText : string → W → (thrown X + string) * W.
Variable JSON_parse : string → option value.
Variable TypeError_null : thrown X.

(** The [try] block of the action of [performFactCheck]; [None] when it
    throws. *)
Definition validated (factCheckResult : string) : option (list value) :=
  parsedJson ← match Text.match_array factCheckResult with
               | Some jsonMatch => JSON_parse jsonMatch
               | None => Some (JArray [])
               end;
  match parsedJson with
  | JArray items =>
      validatedResults ← filter_valid items;
      if (length validatedResults =? 0)%nat && (0 <? length items)%nat
      then None
      else Some validatedResults
  | _ => None
  end.

(** The [try] block with its [catch]. *)
Definition parse_response (factCheckResult : string)
  : thrown X + list value :=
  match validated factCheckResult with
  | Some validatedResults => inr validatedResults
  | None =>
      inl (Error ("Failed to parse fact-check results: " +:+ factCheckResult))
  end.

(** The action [performFactCheck] hands to [withRetry]. *)
Definition action (text : string) (w : W) : (thrown X + list value) * W :=
  match generateText text w with
  | (inl error, w') => (inl error, w')
  | (inr factCheckResult, w') => (parse_response factCheckResult, w')
  end.

(** [performFactCheck(text)] *)
Definition performFactCheck (text : string) (w : W)
  : option (Retry.execution W (thrown X) (list value)) :=
  Retry.withRetry (action text) retry_options w.

(** The module state of route.ts: [requestLog], [factCheckCache], and
    the provider behind [generateText]. *)
Record server : Type := {
  requestLog : gmap string (list Z);
  factCheckCache : Cache.Cache (list value);
  provider : W
}.

(** [new Cache<FactCheckResult[]>(60)], an empty log. *)
Definition start (w : W) : server :=
  {| requestLog := ∅; factCheckCache := Cache.new_Cache (Some 60%Z);
     provider := w |}.

(** [req.headers.get("x-forwarded-for") || "unknown"] *)
Definition identity (req : request X) : string :=
  match x_forwarded_for req with
  | Some ip => if String.eqb ip "" then "unknown" else ip
  | None => "unknown"
  end.

Definition too_many_requests : response :=
  {| status := 429;
     body := JObject [("error"%string,
                       JString "Too many requests. Please try again later.")]
  |}.

Definition invalid_input : response :=
  {| status := 400;
     body := JObject [("error"%string,
                       JString
                         "Invalid input. Please provide a text to fact-check.")]
  |}.

(** The [catch] of [POST]; [None] is a thrown [null]. *)
Definition failure (error : option (thrown X)) : response :=
  {| status := 500;
     body := JObject
               [("error"%string,
                 JString "An error occurred during fact-checking.");
                ("details"%string,
                 JString match error with
                         | Some (Error message) => message
                         | _ => "Unknown error"
                         end)] |}.

(** [NextResponse.json(result)] *)
Definition ok (result : list value) : response :=
  {| status := 200; body := JArray result |}.

(** [const { text } = await req.json()] followed by the test
    [!text || typeof text !== "string"]: the text when the test lets it
    through. *)
Definition accepted_text (data : value) : option string :=
  match prop data "text" with
  | Some (Some (JString text)) =>
      if truthy (Some (JString text)) then Some text else None
  | _ => None
  end.

(** [POST(req)]: the response, the invocations of the provider and the
    delays waited, and the state afterwards.  One request is handled
    from start to end; [None] only if [withRetry] ran out of fuel. *)
Definition POST (req : request X) (now : clock) (s : server)
  : option (response * list Retry.event * server) :=
  let ip := identity req in
  let '(limited, log) := Route.isRateLimited ip (at_check now) (requestLog s) in
  if limited then
    Some (too_many_requests, [],
          {| requestLog := log; factCheckCache := factCheckCache s;
             provider := provider s |})
  else
    let log := Route.logRequest ip (at_record now) log in
    let recorded :=
      {| requestLog := log; factCheckCache := factCheckCache s;
         provider := provider s |} in
    match json req with
    | inl error => Some (failure (Some error), [], recorded)
    | inr JNull => Some (failure (Some TypeError_null), [], recorded)
    | inr data =>
        match accepted_text data with
        | None => Some (invalid_input, [], recorded)
        | Some text =>
            let '(cachedResult, cache) :=
              Cache.get text (at_get now) (factCheckCache s) in
            match cachedResult with
            | Some result =>
                Some (ok result, [],
                      {| requestLog := log; factCheckCache := cache;
                         provider := provider s |})
            | None =>
                x ← performFactCheck text (provider s);
                match Retry.result x with
                | Retry.Return result =>
                    Some (ok result, Retry.trace x,
                          {| requestLog := log;
                             factCheckCache :=
                               Cache.set text result (at_set now) cache;
                             provider := Retry.world x |})
                | Retry.Throw error =>
                    Some (failure error, Retry.trace x,
                          {| requestLog := log; factCheckCache := cache;
                             provider := Retry.world x |})
                end
            end
        end
    end.

End WithProvider.
End FactCheck.

(* ===================================================================== *)
(** ** src/components/fact-checker.tsx *)
(* ===================================================================== *)

Module Component.
Local Open Scope Z_scope.

(** [interface FactCheckResult] *)
Record FactCheckResult : Type := {
  text : string;
  result : string;
  explanation : string;
  sources : list string
}.

(** [getResultColor(result)] *)
Definition getResultColor (result : string) : string :=
  if String.eqb result "correct" then "bg-green-200 dark:bg-green-800"
  else if String.eqb result "incorrect" then "bg-red-200 dark:bg-red-800"
  else if String.eqb result "unverifiable"
       then "bg-yellow-200 dark:bg-yellow-800"
  else if String.eqb result "debatable"
       then "bg-purple-200 dark:bg-purple-800"
  else "bg-gray-200 dark:bg-gray-800".

(** What [renderFactCheckedText] pushes: a plain span of the input, or
    the highlighted text of a result with its colour and tooltip. *)
Inductive element : Type :=
| Plain (content : string)
| Highlight (colour : string) (result : FactCheckResult).

(** The text an element shows. *)
Definition shown (e : element) : string :=
  match e with
  | Plain content => content
  | Highlight _ result => text result
  end.

(** The body of [factCheckResults.forEach]: the elements pushed from
    [lastIndex] on, and the last value of [lastIndex]. *)
Fixpoint highlight (inputText : string) (results : list FactCheckResult)
    (lastIndex : Z) : list element * Z :=
  match results with
  | [] => ([], lastIndex)
  | result :: results' =>
      let startIndex := Text.indexOf inputText (text result) lastIndex in
      let before :=
        if lastIndex <? startIndex
        then [Plain (Text.slice inputText lastIndex startIndex)]
        else [] in
      let lastIndex := startIndex + Text.len (text result) in
      let '(elements, lastIndex) := highlight inputText results' lastIndex in
      (before
       ++ Highlight (getResultColor (Component.result result)) result
       :: elements,
       lastIndex)
  end.

(** [renderFactCheckedText()]: [None] is the paragraph "No
    fact-checkable statements found.". *)
Definition renderFactCheckedText (inputText : string)
    (factCheckResults : list FactCheckResult) : option (list element) :=
  if (length factCheckResults =? 0)%nat then None
  else
    let '(elements, lastIndex) := highlight inputText factCheckResults 0 in
    Some (elements
          ++ if lastIndex <? Text.len inputText
             then [Plain (Text.slice inputText lastIndex
                            (Text.len inputText))]
             else []).

(** Every result is found from where the previous one ended. *)
Fixpoint located (inputText : string) (results : list FactCheckResult)
    (lastIndex : Z) : Prop :=
  match results with
  | [] => True
  | result :: results' =>
      0 ≤ Text.indexOf inputText (text result) lastIndex
      ∧ located inputText results'
          (Text.indexOf inputText (text result) lastIndex
           + Text.len (text result))
  end.

(** The texts of a list of elements, one after the other. *)
Definition shown_text (elements : list element) : string :=
  fold_right (λ e rest, shown e +:+ rest) ""%string elements.

(** The results that a list of elements highlights, in order. *)
Fixpoint highlighted (elements : list element) : list FactCheckResult :=
  match elements with
  | [] => []
  | Plain _ :: elements' => highlighted elements'
  | Highlight _ result :: elements' => result :: highlighted elements'
  end.

End Component.

(* ===================================================================== *)
(** ** A provider, requests and results to run the handler on *)
(* ===================================================================== *)

Module Fixture.
Import Json FactCheck.

(** A result of the right shape. *)
Definition good : value :=
  JObject [("text"%string, JString "sky is green");
           ("result"%string, JString "incorrect");
           ("explanation"%string, JString "The sky is blue.");
           ("sources"%string, JArray [JString "https://example.org/sky"])].

(** A stand-in for [JSON.parse] on the bracketed parts used below. *)
Definition JSON_parse (s : string) : option value :=
  if String.eqb s "[]" then Some (JArray [])
  else if String.eqb s "[good]" then Some (JArray [good])
  else if String.eqb s "[good, 1]" then Some (JArray [good; JNumber 1])
  else if String.eqb s "[null, good]" then Some (JArray [JNull; good])
  else None.

(** A provider that rejects its first call, answers the second one well
    and answers with something that is not JSON from then on; its state
    counts the calls. *)
Definition generateText (text : string) (w : nat)
  : (thrown unit + string) * nat :=
  (match w with
   | O => inl (Error "overloaded")
   | S O => inr "Here you are: [good] Anything else?"%string
   | _ => inr "[sorry]"%string
   end, S w).

Definition TypeError_null : thrown unit :=
  Error "Cannot destructure property of null".

(** A request of ["10.0.0.1"] whose body is [{ text }]. *)
Definition ask (text : string) : request unit :=
  {| x_forwarded_for := Some "10.0.0.1"%string;
     json := inr (JObject [("text"%string, JString text)]) |}.

(** A request whose body has no [text]. *)
Definition empty_body : request unit :=
  {| x_forwarded_for := None; json := inr (JObject []) |}.

Definition morning : clock :=
  {| at_check := 60500; at_record := 60501; at_get := 60502;
     at_set := 64000 |}.

Definition later : clock :=
  {| at_check := 70000; at_record := 70001; at_get := 70002;
     at_set := 70003 |}.

(** The server at start, with a provider that has been called [w]
    times. *)
Definition fresh (w : nat) : server := start w.

(** A server whose log is [Sample.busy_log]. *)
Definition busy : server :=
  {| requestLog := Sample.busy_log;
     factCheckCache := Cache.new_Cache (Some 60%Z); provider := O |}.

(** A server that has the results for ["sky is green"] in its cache. *)
Definition warm : server :=
  {| requestLog := ∅;
     factCheckCache :=
       Cache.set "sky is green" [good] 60000%Z (Cache.new_Cache (Some 60%Z));
     provider := O |}.

(** How [performFactCheck] ends on a provider called for the first
    time, and on one called twice before. *)
Definition second_try : Retry.execution nat (thrown unit) (list value) :=
  {| Retry.result := Retry.Return [good];
     Retry.trace := [Retry.Invoke; Retry.Sleep 1000; Retry.Invoke];
     Retry.world := 2%nat |}.

Definition gives_up : Retry.execution nat (thrown unit) (list value) :=
  {| Retry.result :=
       Retry.Throw
         (Some (Error "Failed to parse fact-check results: [sorry]"));
     Retry.trace :=
       [Retry.Invoke; Retry.Sleep 1000; Retry.Invoke; Retry.Sleep 2000;
        Retry.Invoke];
     Retry.world := 5%nat |}.

(** Calls on a cache that do not name ["abc"]. *)
Definition elsewhere : list (Cache.call (list Z) * Z) :=
  [(Cache.CallSet "xyz"%string [], 40000%Z);
   (Cache.CallGet "xyz"%string, 200000%Z)].

(** Three requests on a clock that jumps. *)
Definition erratic : list (Z * Z) := [(700, 700); (20, 30); (99999, 5)]%Z.

(** Twelve requests within one second. *)
Definition burst : list (Z * Z) :=
  [(0, 0); (100, 100); (200, 201); (300, 300); (400, 400); (500, 502);
   (600, 600); (700, 700); (800, 800); (900, 900); (950, 950);
   (999, 1000)]%Z.

(** The results of the component for the input
    ["The sky is green today."]. *)
Definition checked : list Component.FactCheckResult :=
  [{| Component.text := "sky is green";
      Component.result := "incorrect";
      Component.explanation := "The sky is blue.";
      Component.sources := ["https://example.org/sky"%string] |};
   {| Component.text := "today";
      Component.result := "not-applicable";
      Component.explanation := "";
      Component.sources := [] |}].

End Fixture.

(* ===================================================================== *)
(** * Properties of the cache *)
(* ===================================================================== *)

Section CacheFacts.
Import Cache.
Context {T : Type}.
Implicit Types (this : Cache T) (key : string) (h : list (call T * Z)).
Local Open Scope Z_scope.

(** The time to live is fixed at construction. *)
Lemma ttl_get key now this : ttl (snd (get key now this)) = ttl this.
Proof.
  unfold get. destruct (cache this !! key) as [entry|]; [|done].
  by destruct (_ >? _).
Qed.

Lemma ttl_step this c : ttl (step this c) = ttl this.
Proof. destruct c as [[key v|key|] now]; simpl; auto using ttl_get. Qed.

Lemma ttl_run h this : ttl (run h this) = ttl this.
Proof.
  revert this. induction h as [|c h IH]; intros this; [done|].
  unfold run in *. simpl. by rewrite IH, ttl_step.
Qed.

(** What a read leaves under the other keys, and under its own. *)
Lemma get_other key key' now this :
  key' ≠ key → cache (snd (get key' now this)) !! key = cache this !! key.
Proof.
  intros Hne. unfold get. destruct (cache this !! key') as [entry|]; [|done].
  destruct (_ >? _); [|done]. simpl. by rewrite lookup_delete_ne.
Qed.

Lemma get_same_kept key now this entry :
  cache this !! key = Some entry → now - timestamp entry ≤ ttl this →
  get key now this = (Some (value entry), this).
Proof.
  intros Hk Hle. unfold get. rewrite Hk.
  destruct (Z.gtb_spec (now - timestamp entry) (ttl this)); [lia|done].
Qed.

Lemma get_same_expired key now this entry :
  cache this !! key = Some entry → now - timestamp entry > ttl this →
  fst (get key now this) = None ∧ cache (snd (get key now this)) !! key = None.
Proof.
  intros Hk Hgt. unfold get. rewrite Hk.
  destruct (Z.gtb_spec (now - timestamp entry) (ttl this)); [|lia].
  simpl. by rewrite lookup_delete_eq.
Qed.

Lemma get_absent key now this :
  cache this !! key = None → get key now this = (None, this).
Proof. intros Hk. unfold get. by rewrite Hk. Qed.

(** An entry that is still fresh at [t'] survives a quiet history. *)
Lemma quiet_run_keeps key t' h this entry :
  Forall (quiet key t') h →
  cache this !! key = Some entry → t' - timestamp entry ≤ ttl this →
  cache (run h this) !! key = Some entry.
Proof.
  intros Hq. revert this.
  induction Hq as [|[c now] h Hc Hq IH]; intros this Hk Hle; [done|].
  unfold run in *. cbn [fold_left]. apply IH; [|by rewrite ttl_step].
  destruct c as [key' v|key'|]; simpl in *.
  - by rewrite lookup_insert_ne.
  - destruct (decide (key' = key)) as [->|Hne].
    + rewrite (get_same_kept key now this entry); [done..|].
      specialize (Hc eq_refl). lia.
    + by rewrite get_other.
  - done.
Qed.

(** Under a quiet history the entry is at most lost, never replaced. *)
Lemma quiet_run_lost_or_kept key t' h this entry :
  Forall (quiet key t') h →
  cache this !! key = Some entry ∨ cache this !! key = None →
  cache (run h this) !! key = Some entry ∨ cache (run h this) !! key = None.
Proof.
  intros Hq. revert this.
  induction Hq as [|[c now] h Hc Hq IH]; intros this Hk; [done|].
  unfold run in *. simpl. apply IH.
  destruct c as [key' v|key'|]; simpl in *.
  - by rewrite lookup_insert_ne.
  - destruct (decide (key' = key)) as [->|Hne]; [|by rewrite get_other].
    unfold get. destruct (cache this !! key) as [e|] eqn:He; [|by right].
    destruct (_ >? _); simpl; [right; apply lookup_delete_eq|].
    by rewrite He.
  - done.
Qed.

(** The read of [key] at [t'] after a quiet history that started with a
    fresh entry for [key], stamped [t]. *)
Lemma get_after_quiet key v t t' h this :
  Forall (quiet key t') h →
  cache this !! key = Some {| value := v; timestamp := t |} →
  fst (get key t' (run h this))
  = if t' - t >? ttl this then None else Some v.
Proof.
  intros Hq Hk. destruct (Z.gtb_spec (t' - t) (ttl this)) as [Hgt|Hle].
  - destruct (quiet_run_lost_or_kept key t' h this _ Hq (or_introl Hk))
      as [Hr|Hr].
    + apply (get_same_expired key t' _ _ Hr). rewrite ttl_run. simpl. lia.
    + by rewrite get_absent.
  - rewrite (get_same_kept key t' _ {| value := v; timestamp := t |}).
    + done.
    + by apply (quiet_run_keeps key t').
    + by rewrite ttl_run.
Qed.

(** A key without an entry stays without one until it is set. *)
Lemma no_set_run_absent key h this :
  Forall (no_set key) h →
  cache this !! key = None → cache (run h this) !! key = None.
Proof.
  intros Hq. revert this.
  induction Hq as [|[c now] h Hc Hq IH]; intros this Hk; [done|].
  unfold run in *. simpl. apply IH.
  destruct c as [key' v|key'|]; simpl in *.
  - by rewrite lookup_insert_ne.
  - destruct (decide (key' = key)) as [->|Hne]; [|by rewrite get_other].
    by rewrite get_absent.
  - done.
Qed.

(** C1 (cache TTL invariant).  After [set(key, v)] at time [t], a
    [get(key)] at time [t'] returns [v] when [t' - t <= ttl] and [null]
    when [t' - t > ttl]; this holds across any history of calls in
    between that neither sets [key] nor clears the cache and in which
    [key] is read no later than [t']. *)
Theorem cache_ttl_invariant this key v t h t' :
  Forall (quiet key t') h →
  (t' - t ≤ ttl this →
     fst (get key t' (run h (set key v t this))) = Some v) ∧
  (t' - t > ttl this →
     fst (get key t' (run h (set key v t this))) = None).
Proof.
  intros Hq.
  pose proof (get_after_quiet key v t t' h (set key v t this) Hq) as H.
  rewrite H by apply lookup_insert_eq. simpl.
  destruct (Z.gtb_spec (t' - t) (ttl this)); split; intros; done || lia.
Qed.

(** C7 (cache overwrite).  After [set(key, v1)] and later
    [set(key, v2)] at time [t2], a subsequent [get(key)] returns [v2] as
    long as [t' - t2 <= ttl] and [null] afterwards: the expiry is
    measured from the second [set], whatever the time of the first and
    whatever was called between the two. *)
Theorem cache_overwrite this key v1 v2 t1 t2 h1 h2 t' :
  Forall (quiet key t') h2 →
  (t' - t2 ≤ ttl this →
     fst (get key t' (run h2 (set key v2 t2 (run h1 (set key v1 t1 this)))))
     = Some v2) ∧
  (t' - t2 > ttl this →
     fst (get key t' (run h2 (set key v2 t2 (run h1 (set key v1 t1 this)))))
     = None).
Proof.
  intros Hq.
  rewrite (get_after_quiet key v2 t2 t' h2 _ Hq) by apply lookup_insert_eq.
  simpl. rewrite ttl_run. simpl.
  destruct (Z.gtb_spec (t' - t2) (ttl this)); split; intros; done || lia.
Qed.

(** C9 (cache clear).  After [clear()], [get(key)] returns [null] for
    every key, at any time, until [key] is set again. *)
Theorem cache_clear this key h t :
  Forall (no_set key) h →
  fst (get key t (run h (clear this))) = None.
Proof.
  intros Hq. rewrite get_absent; [done|].
  by apply no_set_run_absent.
Qed.

End CacheFacts.

(* ===================================================================== *)
(** * Properties of the backoff sequence *)
(* ===================================================================== *)

Section BackoffFacts.
Import Retry.
Variables backoffFactor maxDelay : Q.
Abbreviation next := (next_delay backoffFactor maxDelay).
Abbreviation values := (delay_values backoffFactor maxDelay).
Abbreviation nth_delay := (delay_after backoffFactor maxDelay).
Local Open Scope Q_scope.



Lemma length_delay_values n delay : length (values n delay) = n.
Proof. revert delay. induction n; intros; simpl; auto. Qed.




(** The closed form, for a factor of at least one and a cap that is not
    negative. *)
Section ClosedForm.
Hypothesis factor_ge_1 : 1 <= backoffFactor.
Hypothesis cap_nonneg : 0 <= maxDelay.



End ClosedForm.

End BackoffFacts.

(* ===================================================================== *)
(** * Properties of the retry loop *)
(* ===================================================================== *)

Section RetryFacts.
Import Retry.
Context {W E T : Type}.
Variable fn : W → (E + T) * W.
Implicit Types (w : W) (lastError : option E) (tr : list event).

Lemma invocations_app tr1 tr2 :
  invocations (tr1 ++ tr2) = (invocations tr1 + invocations tr2)%nat.
Proof.
  induction tr1 as [|[|d] tr1 IH]; simpl; [done| |done]. by rewrite IH.
Qed.

Lemma delays_app tr1 tr2 : delays (tr1 ++ tr2) = delays tr1 ++ delays tr2.
Proof.
  induction tr1 as [|[|d] tr1 IH]; simpl; [done|done|]. by rewrite IH.
Qed.

Lemma after_nil (o : option (execution W E T)) : after [] o = o.
Proof. by destruct o as [[r tr w]|]. Qed.

Lemma world_after_S n w :
  world_after fn (S n) w = snd (fn (world_after fn n w)).
Proof. revert w. induction n as [|n IH]; intros w; [done|]. apply IH. Qed.

Lemma fails_first_tail n w :
  fails_first fn (S n) w → fails_first fn n (snd (fn w)).
Proof. intros Hf i Hi. apply (Hf (S i)). lia. Qed.

(** The counter against the budget, one step on. *)
Lemma inject_Z_succ (attempt : Z) :
  (inject_Z (attempt + 1) == inject_Z attempt + 1)%Q.
Proof. by rewrite inject_Z_plus. Qed.

Lemma inject_Z_of_nat_nonneg (n : nat) : (0 <= inject_Z (Z.of_nat n))%Q.
Proof. change 0%Q with (inject_Z 0). rewrite <- Zle_Qle. lia. Qed.

Section LoopFacts.
Variables maxRetries maxDelay backoffFactor : Q.
Abbreviation loop := (retry_loop fn maxRetries maxDelay backoffFactor).
Local Open Scope Q_scope.

(** The loop is left by its test once the budget is used up. *)
Lemma retry_loop_exit fuel attempt delay lastError w :
  maxRetries <= inject_Z attempt →
  loop (S fuel) attempt delay lastError w
  = Some {| result := Throw lastError; trace := []; world := w |}.
Proof.
  intros Hge. simpl.
  destruct (Qlt_le_dec (inject_Z attempt) maxRetries); [lra|done].
Qed.

(** An attempt that resolves ends the call. *)
Lemma retry_loop_resolved fuel attempt delay lastError w v w' :
  inject_Z attempt < maxRetries → fn w = (inr v, w') →
  loop (S fuel) attempt delay lastError w
  = Some {| result := Return v; trace := [Invoke]; world := w' |}.
Proof.
  intros Hlt Hfn. simpl. rewrite Hfn.
  destruct (Qlt_le_dec (inject_Z attempt) maxRetries); [done|lra].
Qed.


(** Any other attempt that rejects is followed by a delay and the rest of
    the loop. *)
Lemma retry_loop_rejected fuel attempt delay lastError w e w' :
  inject_Z attempt < maxRetries → ¬ inject_Z attempt == maxRetries - 1 →
  fn w = (inl e, w') →
  loop (S fuel) attempt delay lastError w
  = after [Invoke; Sleep delay]
      (loop fuel (attempt + 1) (next_delay backoffFactor maxDelay delay)
         (Some e) w').
Proof.
  intros Hlt Hne Hfn. simpl. rewrite Hfn.
  destruct (Qlt_le_dec (inject_Z attempt) maxRetries); [|lra].
  destruct (Qeq_dec (inject_Z attempt) (maxRetries - 1)); [tauto|done].
Qed.

(** While the budget is not used up, the incoming [lastError] is dead. *)
Lemma retry_loop_lastError fuel attempt delay lastError lastError' w :
  inject_Z attempt < maxRetries →
  loop fuel attempt delay lastError w = loop fuel attempt delay lastError' w.
Proof.
  intros Hlt. destruct fuel as [|fuel]; [done|]. simpl.
  destruct (Qlt_le_dec (inject_Z attempt) maxRetries); [done|lra].
Qed.

(** The loop ends within the remaining budget, with one more turn for the
    test that leaves it. *)
Lemma retry_loop_total fuel attempt delay lastError w :
  (Z.to_nat (Qceiling maxRetries - attempt) < fuel)%nat →
  is_Some (loop fuel attempt delay lastError w).
Proof.
  revert attempt delay lastError w.
  induction fuel as [|fuel IH]; intros attempt delay lastError w Hfuel;
    [lia|].
  simpl. destruct (Qlt_le_dec (inject_Z attempt) maxRetries) as [Hlt|];
    [|done].
  destruct (fn w) as [[e|v] w']; [|done].
  destruct (Qeq_dec (inject_Z attempt) (maxRetries - 1)); [done|].
  assert (attempt < Qceiling maxRetries)%Z.
  { rewrite Zlt_Qlt. pose proof (Qle_ceiling maxRetries). lra. }
  destruct (IH (attempt + 1)%Z
              (next_delay backoffFactor maxDelay delay) (Some e) w')
    as [x ->]; [lia|done].
Qed.

(** More fuel does not change how the loop ends. *)
Lemma retry_loop_fuel fuel fuel' attempt delay lastError w x :
  loop fuel attempt delay lastError w = Some x → (fuel ≤ fuel')%nat →
  loop fuel' attempt delay lastError w = Some x.
Proof.
  revert fuel' attempt delay lastError w x.
  induction fuel as [|fuel IH];
    intros fuel' attempt delay lastError w x Hx Hle; [done|].
  destruct fuel' as [|fuel']; [lia|]. simpl in *.
  destruct (Qlt_le_dec (inject_Z attempt) maxRetries); [|done].
  destruct (fn w) as [[e|v] w']; [|done].
  destruct (Qeq_dec (inject_Z attempt) (maxRetries - 1)); [done|].
  destruct (loop fuel _ _ _ _) as [y|] eqn:Hy; [|done].
  rewrite (IH fuel' _ _ _ _ y Hy) by lia. done.
Qed.

(** [n] rejected attempts that leave the budget unfinished. *)
Lemma retry_loop_failed n fuel attempt delay lastError w :
  fails_first fn n w → inject_Z (attempt + Z.of_nat n) < maxRetries →
  loop (n + fuel) attempt delay lastError w
  = after (failed_attempts backoffFactor maxDelay n delay)
      (loop fuel (attempt + Z.of_nat n)
         (delay_after backoffFactor maxDelay n delay) lastError
         (world_after fn n w)).
Proof.
  revert attempt delay lastError w.
  induction n as [|n IH]; intros attempt delay lastError w Hf Hlt.
  - rewrite after_nil, Z.add_0_r. done.
  - destruct (Hf O ltac:(lia)) as [e He]. simpl in He.
    destruct (fn w) as [r w'] eqn:Hfn. simpl in He. subst r.
    replace (attempt + Z.of_nat (S n))%Z
      with (attempt + 1 + Z.of_nat n)%Z in * by lia.
    assert (Hstep : inject_Z attempt < maxRetries - 1).
    { pose proof (inject_Z_of_nat_nonneg n).
      rewrite !inject_Z_plus in Hlt. change (inject_Z 1) with 1 in Hlt.
      lra. }
    change (S n + fuel)%nat with (S (n + fuel)).
    rewrite (retry_loop_rejected _ _ _ _ _ e w');
      [|lra|intros Heq; rewrite Heq in Hstep; lra|done].
    rewrite (IH (attempt + 1)%Z);
      [|by (apply fails_first_tail in Hf; rewrite Hfn in Hf)|done].
    cbn [delay_after failed_attempts world_after]. rewrite Hfn. simpl.
    rewrite (retry_loop_lastError _ _ _ (Some e) lastError) by done.
    by destruct (loop fuel _ _ lastError _).
Qed.

(** The delays of any run of the loop are the successive values of
    [delay]. *)
Lemma retry_loop_delays fuel attempt delay lastError w x :
  loop fuel attempt delay lastError w = Some x →
  ∃ n, delays (trace x) = delay_values backoffFactor maxDelay n delay.
Proof.
  revert attempt delay lastError w x.
  induction fuel as [|fuel IH]; intros attempt delay lastError w x; [done|].
  simpl. destruct (Qlt_le_dec (inject_Z attempt) maxRetries).
  - destruct (fn w) as [[e|v] w'].
    + destruct (Qeq_dec (inject_Z attempt) (maxRetries - 1)) as [Heq|Hne].
      * intros [= <-]. by exists O.
      * destruct (loop fuel _ _ _ _) as [y|] eqn:Hy; [|done].
        intros [= <-]. destruct (IH _ _ _ _ _ Hy) as [n Hn].
        exists (S n). simpl. by rewrite Hn.
    + intros [= <-]. by exists O.
  - intros [= <-]. by exists O.
Qed.

End LoopFacts.

Lemma failed_attempts_invocations backoffFactor maxDelay n delay :
  invocations (failed_attempts backoffFactor maxDelay n delay) = n.
Proof.
  revert delay. induction n as [|n IH]; intros delay; simpl; [done|].
  by rewrite IH.
Qed.

Lemma failed_attempts_delays backoffFactor maxDelay n delay :
  delays (failed_attempts backoffFactor maxDelay n delay)
  = delay_values backoffFactor maxDelay n delay.
Proof.
  revert delay. induction n as [|n IH]; intros delay; simpl; [done|].
  by rewrite IH.
Qed.

Implicit Types options : RetryOptions.

(** [withRetry] always settles. *)
Lemma withRetry_total options w : is_Some (withRetry fn options w).
Proof. unfold withRetry. apply retry_loop_total. lia. Qed.

(** The fuel given by [withRetry] is enough: more of it changes nothing. *)
Lemma withRetry_fuel options w fuel :
  (S (Z.to_nat (Qceiling (maxRetries_of options))) ≤ fuel)%nat →
  retry_loop fn (maxRetries_of options) (maxDelay_of options)
    (backoffFactor_of options) fuel 0 (initialDelay_of options) None w
  = withRetry fn options w.
Proof.
  intros Hle. destruct (withRetry_total options w) as [x Hx].
  rewrite Hx. by apply (retry_loop_fuel _ _ _ _ _ _ _ _ _ _ Hx).
Qed.

(** A call whose first [k] attempts reject and whose budget is larger. *)
Lemma withRetry_failed (k : nat) options w :
  fails_first fn k w → (inject_Z (Z.of_nat k) < maxRetries_of options)%Q →
  withRetry fn options w
  = after
      (failed_attempts (backoffFactor_of options) (maxDelay_of options) k
         (initialDelay_of options))
      (retry_loop fn (maxRetries_of options) (maxDelay_of options)
         (backoffFactor_of options)
         (S (Z.to_nat (Qceiling (maxRetries_of options)) - k))
         (Z.of_nat k)
         (delay_after (backoffFactor_of options) (maxDelay_of options) k
            (initialDelay_of options))
         None (world_after fn k w)).
Proof.
  intros Hf Hk. unfold withRetry.
  assert (Z.of_nat k < Qceiling (maxRetries_of options))%Z.
  { rewrite Zlt_Qlt. pose proof (Qle_ceiling (maxRetries_of options)). lra. }
  replace (S (Z.to_nat (Qceiling (maxRetries_of options))))
    with (k + S (Z.to_nat (Qceiling (maxRetries_of options)) - k))%nat
    by lia.
  by rewrite retry_loop_failed.
Qed.

(** The call when attempt [k + 1] is the first to resolve. *)
Lemma withRetry_resolved (k : nat) options w v w' :
  fails_first fn k w → (inject_Z (Z.of_nat k) < maxRetries_of options)%Q →
  fn (world_after fn k w) = (inr v, w') →
  withRetry fn options w
  = Some {| result := Return v;
            trace := failed_attempts (backoffFactor_of options)
                       (maxDelay_of options) k (initialDelay_of options)
                     ++ [Invoke];
            world := w' |}.
Proof.
  intros Hf Hk Hfn. rewrite (withRetry_failed k) by done.
  by rewrite (retry_loop_resolved _ _ _ _ _ _ _ _ v w').
Qed.


Lemma always_fails_first n w : always_fails fn → fails_first fn n w.
Proof. intros Hf i _. apply Hf. Qed.



(** C6 (retry success paths).  For [1 <= k <= maxRetries], an action that
    rejects on attempts [1..k-1] and resolves with [v] on attempt [k]
    makes [withRetry] return [v] after exactly [k] invocations and
    exactly [k-1] delays; for [k = 1] the action is invoked once and
    nothing is waited. *)
Theorem retry_late_success (k : nat) options w v :
  (1 ≤ k)%nat → (inject_Z (Z.of_nat k) <= maxRetries_of options)%Q →
  fails_first fn (k - 1) w →
  fst (fn (world_after fn (k - 1) w)) = inr v →
  ∃ x, withRetry fn options w = Some x
     ∧ result x = Return v
     ∧ invocations (trace x) = k
     ∧ length (delays (trace x)) = (k - 1)%nat
     ∧ (k = 1%nat → trace x = [Invoke]).
Proof.
  intros Hk Hle Hf Hv.
  destruct (fn (world_after fn (k - 1) w)) as [r w'] eqn:Hfn.
  simpl in Hv. subst r.
  assert (Hlt : (inject_Z (Z.of_nat (k - 1)) < maxRetries_of options)%Q).
  { eapply Qlt_le_trans; [|exact Hle]. rewrite <- Zlt_Qlt. lia. }
  eexists. split.
  { by apply (withRetry_resolved (k - 1) _ _ v w'). }
  cbn [trace result].
  rewrite invocations_app, delays_app, failed_attempts_invocations,
    failed_attempts_delays, app_nil_r, length_delay_values.
  split; [done|]. split; [simpl; lia|]. split; [done|].
  by intros ->.
Qed.

(** C10 (no budget).  With [maxRetries <= 0] the action is never invoked,
    nothing is waited, and the call throws [null], the initial value of
    [lastError]. *)
Theorem retry_no_budget options w :
  (maxRetries_of options <= 0)%Q →
  withRetry fn options w
  = Some {| result := Throw None; trace := []; world := w |}.
Proof.
  intros Hle. unfold withRetry. by apply retry_loop_exit.
Qed.

End RetryFacts.

(* ===================================================================== *)
(** * The rate limiter *)
(* ===================================================================== *)

Section RouteFacts.
Import Route.
Implicit Types (ip : string) (requestLog : gmap string (list Z)).
Local Open Scope Z_scope.

(** The pruning keeps the timestamps strictly newer than
    [now - 60000], in their order and with their multiplicity. *)
Lemma recent_filter now (requests : list Z) :
  recent now requests = filter (λ time, now - 60000 < time) requests.
Proof.
  induction requests as [|time requests IH]; [done|].
  unfold recent in *. cbn [List.filter]. rewrite IH.
  unfold RATE_LIMIT_WINDOW.
  destruct (Z.gtb_spec time (now - 60 * 1000)).
  - by rewrite filter_cons_True by lia.
  - by rewrite filter_cons_False by lia.
Qed.

Lemma recent_sublist now (requests : list Z) :
  recent now requests `sublist_of` requests.
Proof. rewrite recent_filter. apply sublist_filter. Qed.

Lemma elem_of_recent now (requests : list Z) time :
  time ∈ recent now requests ↔ time ∈ requests ∧ now - 60000 < time.
Proof. rewrite recent_filter, list_elem_of_filter. tauto. Qed.

Lemma isRateLimited_log ip now requestLog :
  snd (isRateLimited ip now requestLog)
  = <[ip := recent now (default [] (requestLog !! ip))]> requestLog.
Proof. done. Qed.

Lemma isRateLimited_verdict ip now requestLog :
  fst (isRateLimited ip now requestLog) = true
  ↔ (10 ≤ length (recent now (default [] (requestLog !! ip))))%nat.
Proof.
  unfold isRateLimited, MAX_REQUESTS_PER_WINDOW. simpl.
  destruct (Z.geb_spec
              (Z.of_nat (length (recent now (default [] (requestLog !! ip)))))
              10); split; intros; done || lia.
Qed.

(** The verdict for [ip] reads nothing but the entry of [ip]. *)
Lemma isRateLimited_verdict_local ip now requestLog requestLog' :
  requestLog' !! ip = requestLog !! ip →
  fst (isRateLimited ip now requestLog')
  = fst (isRateLimited ip now requestLog).
Proof. intros Heq. unfold isRateLimited. simpl. by rewrite Heq. Qed.

Lemma isRateLimited_other ip ip' now requestLog :
  ip' ≠ ip →
  snd (isRateLimited ip now requestLog) !! ip' = requestLog !! ip'.
Proof. intros Hne. rewrite isRateLimited_log. by rewrite lookup_insert_ne. Qed.

Lemma logRequest_other ip ip' now requestLog :
  ip' ≠ ip → logRequest ip now requestLog !! ip' = requestLog !! ip'.
Proof. intros Hne. unfold logRequest. by rewrite lookup_insert_ne. Qed.

(** C4 (rate limiter check).  [isRateLimited(ip)] leaves under [ip]
    exactly the recorded timestamps strictly newer than [now - 60000], in
    their order, and returns true if and only if at least 10 of them
    remain; an identity without an entry is not limited. *)
Theorem isRateLimited_prunes_and_counts ip now requestLog :
  let requests := default [] (requestLog !! ip) in
  let pruned := filter (λ time, now - 60000 < time) requests in
  snd (isRateLimited ip now requestLog) !! ip = Some pruned
  ∧ (∀ time, time ∈ pruned ↔ time ∈ requests ∧ now - 60000 < time)
  ∧ (fst (isRateLimited ip now requestLog) = true
     ↔ (10 ≤ length pruned)%nat)
  ∧ (requestLog !! ip = None →
     fst (isRateLimited ip now requestLog) = false).
Proof.
  intros requests pruned. subst requests pruned.
  rewrite <- recent_filter. split; [|split; [|split]].
  - rewrite isRateLimited_log. apply lookup_insert_eq.
  - intros time. apply elem_of_recent.
  - apply isRateLimited_verdict.
  - intros Hnone. apply not_true_is_false.
    rewrite isRateLimited_verdict, Hnone. simpl. lia.
Qed.

(** C5 (the check only prunes).  Whatever its verdict, [isRateLimited(ip)]
    changes the log in one place: the entry of [ip] becomes its pruned
    list, a sublist of what was recorded, so that no timestamp is added.
    The timestamp of the request is appended by the caller, [POST], and
    only when the verdict is false. *)
Theorem isRateLimited_only_prunes ip now0 now1 requestLog :
  let requests := default [] (requestLog !! ip) in
  let pruned := filter (λ time, now0 - 60000 < time) requests in
  snd (isRateLimited ip now0 requestLog) = <[ip := pruned]> requestLog
  ∧ pruned `sublist_of` requests
  ∧ (fst (isRateLimited ip now0 requestLog) = true →
     POST_admission ip now0 now1 requestLog
     = (TooManyRequests, <[ip := pruned]> requestLog))
  ∧ (fst (isRateLimited ip now0 requestLog) = false →
     POST_admission ip now0 now1 requestLog
     = (Accepted, <[ip := pruned ++ [now1]]> requestLog)).
Proof.
  intros requests pruned. subst requests pruned.
  rewrite <- recent_filter. split; [|split; [|split]].
  - apply isRateLimited_log.
  - apply recent_sublist.
  - unfold POST_admission.
    destruct (isRateLimited ip now0 requestLog) as [limited log'] eqn:Hc.
    pose proof (isRateLimited_log ip now0 requestLog) as Hlog.
    rewrite Hc in Hlog. simpl in *. intros ->. by rewrite Hlog.
  - unfold POST_admission.
    destruct (isRateLimited ip now0 requestLog) as [limited log'] eqn:Hc.
    pose proof (isRateLimited_log ip now0 requestLog) as Hlog.
    rewrite Hc in Hlog. simpl in *. intros ->. subst log'.
    unfold logRequest. rewrite lookup_insert_eq. simpl.
    by rewrite insert_insert_eq.
Qed.

(** C8 (independence of identities).  For [X ≠ Y], what is recorded for
    [X] (an entry written for [X], a request of [X] logged by [POST], the
    pruning of [X] by a check) does not change the verdict of
    [isRateLimited(Y)], and [isRateLimited(X)] leaves the entry of [Y] as
    it is. *)
Theorem rate_limiter_independence (X Y : string) now requestLog :
  X ≠ Y →
  (∀ timestamps : list Z,
     fst (isRateLimited Y now (<[X := timestamps]> requestLog))
     = fst (isRateLimited Y now requestLog))
  ∧ (∀ t, fst (isRateLimited Y now (logRequest X t requestLog))
          = fst (isRateLimited Y now requestLog))
  ∧ (∀ t, fst (isRateLimited Y now (snd (isRateLimited X t requestLog)))
          = fst (isRateLimited Y now requestLog))
  ∧ snd (isRateLimited X now requestLog) !! Y = requestLog !! Y.
Proof.
  intros Hne. split; [|split; [|split]].
  - intros timestamps. apply isRateLimited_verdict_local.
    by rewrite lookup_insert_ne.
  - intros t. apply isRateLimited_verdict_local.
    by apply logRequest_other.
  - intros t. apply isRateLimited_verdict_local.
    by apply isRateLimited_other.
  - by apply isRateLimited_other.
Qed.

End RouteFacts.

(* ===================================================================== *)
(** * Concrete runs *)
(* ===================================================================== *)

Section Runs.
Import Sample.
Local Open Scope Z_scope.

(** The end-to-end example of the specification: TTL one minute,
    [set("abc", [1,2,3])], an immediate read, a read 61 seconds later. *)
Example cache_one_minute :
  fst (Cache.get "abc" 0 (Cache.set "abc" [1; 2; 3] 0 one_minute))
  = Some [1; 2; 3]
  ∧ fst (Cache.get "abc" 61000 (Cache.set "abc" [1; 2; 3] 0 one_minute))
    = None
  ∧ fst (Cache.get "abc" 60000 (Cache.set "abc" [1; 2; 3] 0 one_minute))
    = Some [1; 2; 3].
Proof. by vm_compute. Qed.

(** The expired read deletes the entry. *)
Example cache_lazy_eviction :
  Cache.cache
    (snd (Cache.get "abc" 61000 (Cache.set "abc" [1; 2; 3] 0 one_minute)))
  !! "abc"%string = None.
Proof. by vm_compute. Qed.

(** [performFactCheck] against an action that always rejects: three
    invocations, delays of 1000 and 2000, the third error thrown. *)
Example fact_check_exhausted :
  Retry.withRetry failing fact_check_options 0%nat
  = Some {| Retry.result := Retry.Throw (Some 2%nat);
            Retry.trace :=
              [Retry.Invoke; Retry.Sleep 1000; Retry.Invoke;
               Retry.Sleep 2000; Retry.Invoke];
            Retry.world := 3%nat |}.
Proof. by vm_compute. Qed.

(** The default options against an action that resolves at its third
    invocation. *)
Example default_third_time_lucky :
  Retry.withRetry (flaky 2) Retry.no_options 0%nat
  = Some {| Retry.result := Retry.Return "ok"%string;
            Retry.trace :=
              [Retry.Invoke; Retry.Sleep 1000; Retry.Invoke;
               Retry.Sleep 2000; Retry.Invoke];
            Retry.world := 3%nat |}.
Proof. by vm_compute. Qed.

(** A factor below one: the variable [delay] decays once it was capped,
    100, 10, 5, while the closed form stays at the cap, 100, 10, 10. *)
Example decaying_delays :
  (Retry.delays <$> (Retry.trace <$> Retry.withRetry failing decaying 0%nat))
  = Some [100%Q; 10%Q; (10 # 2)%Q]
  ∧ Retry.spec_delays 100 (1 # 2) 10 3 = [100%Q; 10%Q; 10%Q].
Proof. by vm_compute. Qed.

(** The window example of the specification: ten requests within the
    last minute limit the identity; once the earliest is a minute old,
    nine remain and the identity is admitted. *)
Example window_of_ten :
  fst (Route.isRateLimited "10.0.0.1" 60500 busy_log) = true
  ∧ fst (Route.isRateLimited "10.0.0.1" 61000 busy_log) = false
  ∧ snd (Route.isRateLimited "10.0.0.1" 61000 busy_log) !! "10.0.0.1"%string
    = Some [2000; 3000; 4000; 5000; 6000; 7000; 8000; 9000; 10000].
Proof. by vm_compute. Qed.

(** A rejected request prunes the log and is not recorded; an admitted
    one is recorded by [POST]. *)
Example admission_of_the_eleventh :
  fst (Route.POST_admission "10.0.0.1" 60500 60501 busy_log)
  = Route.TooManyRequests
  ∧ snd (Route.POST_admission "10.0.0.1" 60500 60501 busy_log)
    !! "10.0.0.1"%string
    = Some [1000; 2000; 3000; 4000; 5000; 6000; 7000; 8000; 9000; 10000]
  ∧ snd (Route.POST_admission "10.0.0.1" 61000 61001 busy_log)
    !! "10.0.0.1"%string
    = Some [2000; 3000; 4000; 5000; 6000; 7000; 8000; 9000; 10000; 61001].
Proof. by vm_compute. Qed.

End Runs.

(* ===================================================================== *)
(** * Where the specification's wording fails, and instances *)
(* ===================================================================== *)

Section Instances.
Import Sample.
Local Open Scope Z_scope.

Lemma failing_always_fails : Retry.always_fails failing.
Proof. intros w. by exists w. Qed.

(** A budget of 2.5: three invocations, and a delay is waited after the
    third, since [attempt === maxRetries - 1] never holds. *)
Example fractional_budget_run :
  Retry.withRetry failing fractional_budget 0%nat
  = Some {| Retry.result := Retry.Throw (Some 2%nat);
            Retry.trace :=
              [Retry.Invoke; Retry.Sleep 1000; Retry.Invoke;
               Retry.Sleep 2000; Retry.Invoke; Retry.Sleep 4000];
            Retry.world := 3%nat |}.
Proof. by vm_compute. Qed.



Lemma history_quiet t' : 30000 ≤ t' → Forall (Cache.quiet "abc" t') history.
Proof.
  intros Ht. unfold history.
  constructor; [simpl; intros _; lia|].
  constructor; [simpl; discriminate|].
  constructor; [simpl; discriminate|].
  constructor.
Qed.

Lemma cache_ttl_invariant_witness :
  Forall (Cache.quiet "abc" 60000) history
  ∧ fst (Cache.get "abc" 60000
           (Cache.run history (Cache.set "abc" [1; 2; 3] 0 one_minute)))
    = Some [1; 2; 3]
  ∧ fst (Cache.get "abc" 60001
           (Cache.run history (Cache.set "abc" [1; 2; 3] 0 one_minute)))
    = None.
Proof.
  split; [apply history_quiet; lia|]. split.
  - apply (cache_ttl_invariant one_minute "abc" [1; 2; 3] 0 history 60000).
    + apply history_quiet. lia.
    + vm_compute. discriminate.
  - apply (cache_ttl_invariant one_minute "abc" [1; 2; 3] 0 history 60001).
    + apply history_quiet. lia.
    + reflexivity.
Defined.

Lemma cache_overwrite_witness :
  Forall (Cache.quiet "abc" 65000) history
  ∧ fst (Cache.get "abc" 65000
           (Cache.run history
              (Cache.set "abc" [4] 5000
                 (Cache.run [] (Cache.set "abc" [1; 2; 3] 0 one_minute)))))
    = Some [4].
Proof.
  split; [apply history_quiet; lia|].
  apply (cache_overwrite one_minute "abc" [1; 2; 3] [4] 0 5000 [] history
           65000).
  - apply history_quiet. lia.
  - vm_compute. discriminate.
Defined.

Lemma cache_clear_witness :
  Forall (Cache.no_set "abc") history
  ∧ fst (Cache.get "abc" 10
           (Cache.run history
              (Cache.clear (Cache.set "abc" [1; 2; 3] 0 one_minute))))
    = None.
Proof.
  assert (Hq : Forall (Cache.no_set "abc") history)
    by (unfold history; repeat (constructor; [exact I || discriminate|]);
        constructor).
  split; [exact Hq|].
  apply (cache_clear (Cache.set "abc" [1; 2; 3] 0 one_minute) "abc" history
           10 Hq).
Defined.


Lemma retry_late_success_witness :
  (1 ≤ 3)%nat
  ∧ (inject_Z (Z.of_nat 3) <= Retry.maxRetries_of Retry.no_options)%Q
  ∧ Retry.fails_first (flaky 2) (3 - 1) 0%nat
  ∧ fst (flaky 2 (Retry.world_after (flaky 2) (3 - 1) 0%nat))
    = inr "ok"%string
  ∧ ∃ x, Retry.withRetry (flaky 2) Retry.no_options 0%nat = Some x
       ∧ Retry.result x = Retry.Return "ok"%string
       ∧ Retry.invocations (Retry.trace x) = 3%nat
       ∧ length (Retry.delays (Retry.trace x)) = (3 - 1)%nat
       ∧ (3%nat = 1%nat → Retry.trace x = [Retry.Invoke]).
Proof.
  assert (Hf : Retry.fails_first (flaky 2) (3 - 1) 0%nat).
  { intros i Hi. destruct i as [|[|i]]; [by exists 0%nat|by exists 1%nat|].
    simpl in Hi. lia. }
  assert (H1 : (1 ≤ 3)%nat) by lia.
  assert (H2 : (inject_Z (Z.of_nat 3)
                <= Retry.maxRetries_of Retry.no_options)%Q)
    by (vm_compute; discriminate).
  split; [exact H1|]. split; [exact H2|]. split; [exact Hf|].
  split; [reflexivity|].
  exact (retry_late_success (flaky 2) 3 Retry.no_options 0%nat "ok"
           H1 H2 Hf eq_refl).
Defined.

Lemma retry_no_budget_witness :
  (Retry.maxRetries_of no_budget <= 0)%Q
  ∧ Retry.withRetry failing no_budget 7%nat
    = Some {| Retry.result := Retry.Throw None; Retry.trace := [];
              Retry.world := 7%nat |}.
Proof.
  assert (H : (Retry.maxRetries_of no_budget <= 0)%Q)
    by (vm_compute; discriminate).
  split; [exact H|].
  exact (retry_no_budget failing no_budget 7%nat H).
Defined.

Lemma rate_limiter_independence_witness :
  "10.0.0.1"%string ≠ "10.0.0.2"%string
  ∧ fst (Route.isRateLimited "10.0.0.2" 60500
           (Route.logRequest "10.0.0.1" 60400 busy_log))
    = fst (Route.isRateLimited "10.0.0.2" 60500 busy_log)
  ∧ snd (Route.isRateLimited "10.0.0.1" 60500 busy_log) !! "10.0.0.2"%string
    = busy_log !! "10.0.0.2"%string.
Proof.
  assert (Hne : "10.0.0.1"%string ≠ "10.0.0.2"%string) by discriminate.
  split; [exact Hne|].
  pose proof (rate_limiter_independence "10.0.0.1" "10.0.0.2" 60500 busy_log
                Hne) as (_ & Hlog & _ & Hkeep).
  split; [apply Hlog | exact Hkeep].
Defined.

End Instances.

(* ===================================================================== *)
(** * More on the cache *)
(* ===================================================================== *)

Section CacheMore.
Import Cache History.
Context {T : Type}.
Implicit Types (this : Cache T) (key : string) (h : list (call T * Z)).
Local Open Scope Z_scope.

Lemma run_app h1 h2 this : run (h1 ++ h2) this = run h2 (run h1 this).
Proof. unfold run. apply fold_left_app. Qed.

(** What a single call leaves under a key, in terms of what was there. *)
Lemma step_lookup this c key e :
  cache (step this c) !! key = Some e →
  cache this !! key = Some e
  ∨ ∃ now, c = (CallSet key (value e), now) ∧ timestamp e = now.
Proof.
  destruct c as [[key' v|key'|] now]; simpl.
  - destruct (decide (key' = key)) as [->|Hne].
    + rewrite lookup_insert_eq. intros [= <-]. right. by exists now.
    + rewrite lookup_insert_ne by done. by left.
  - unfold get. destruct (cache this !! key') as [e'|] eqn:He'; [|by left].
    destruct (_ >? _); [|by left]. simpl.
    destruct (decide (key' = key)) as [->|Hne].
    + by rewrite lookup_delete_eq.
    + rewrite lookup_delete_ne by done. by left.
  - by rewrite lookup_empty.
Qed.

Lemma run_lookup h this key e :
  cache (run h this) !! key = Some e →
  cache this !! key = Some e ∨ (CallSet key (value e), timestamp e) ∈ h.
Proof.
  revert this. induction h as [|c h IH]; intros this He; [by left|].
  change (run (c :: h) this) with (run h (step this c)) in He.
  destruct (IH _ He) as [Hs|Hin]; [|right; by apply list_elem_of_further].
  destruct (step_lookup _ _ _ _ Hs) as [?|(now & -> & <-)]; [by left|].
  right. apply list_elem_of_here.
Qed.

(** X1 (nothing is invented).  On a cache that started empty, whatever
    [get(key)] returns at time [t] was stored by a [set(key, v)] of the
    history, made at a time [t0] with [t - t0 <= ttl]; a key that was
    never set reads as [null]. *)
Theorem cache_get_was_set ttlMinutes key h t v :
  fst (get key t (run h (new_Cache ttlMinutes))) = Some v →
  ∃ t0, (CallSet key v, t0) ∈ h
      ∧ t - t0 ≤ default 60 ttlMinutes * 60 * 1000.
Proof.
  unfold get.
  destruct (cache (run h (new_Cache ttlMinutes)) !! key) as [e|] eqn:He;
    [|done].
  rewrite ttl_run.
  destruct (Z.gtb_spec (t - timestamp e) (ttl (@new_Cache T ttlMinutes)));
    [done|].
  simpl. intros [= <-]. exists (timestamp e). split; [|done].
  destruct (run_lookup _ _ _ _ He) as [Hnew|Hin]; [|done].
  simpl in Hnew. by rewrite lookup_empty in Hnew.
Qed.

(** X2 (eviction is final).  Once a read has found the entry of [key]
    expired, [key] reads as [null] at every clock value, earlier ones
    included, until it is set again. *)
Theorem cache_expired_stays_absent this key entry t1 h t2 :
  cache this !! key = Some entry →
  t1 - timestamp entry > ttl this →
  Forall (no_set key) h →
  fst (get key t2 (run h (snd (get key t1 this)))) = None.
Proof.
  intros He Hgt Hq.
  destruct (get_same_expired key t1 this entry He Hgt) as [_ Hgone].
  rewrite get_absent; [done|]. by apply no_set_run_absent.
Qed.

Lemma untouched_step this c key :
  untouched key c → cache (step this c) !! key = cache this !! key.
Proof.
  destruct c as [[key' v|key'|] now]; simpl; intros Hc; [| |done].
  - by rewrite lookup_insert_ne.
  - by apply get_other.
Qed.

(** X3 (keys do not interfere).  Calls that name other keys, without a
    [clear], change neither the entry of [key] nor what a read of [key]
    returns. *)
Theorem cache_other_keys_frame this key h t :
  Forall (untouched key) h →
  cache (run h this) !! key = cache this !! key
  ∧ fst (get key t (run h this)) = fst (get key t this).
Proof.
  intros Hq.
  assert (Hsame : cache (run h this) !! key = cache this !! key).
  { revert this. induction Hq as [|c h Hc Hq IH]; intros this; [done|].
    change (run (c :: h) this) with (run h (step this c)).
    by rewrite IH, untouched_step. }
  split; [done|]. unfold get. rewrite Hsame, ttl_run.
  destruct (cache this !! key) as [e|]; [|done]. by destruct (_ >? _).
Qed.

(** X4 (a hit changes nothing, a read repeats).  A [get] that returns a
    value leaves the cache as it was, and reading the same key again at
    the same clock value gives the same result and the same cache. *)
Theorem cache_get_stable this key now :
  (is_Some (fst (get key now this)) → snd (get key now this) = this)
  ∧ get key now (snd (get key now this)) = get key now this.
Proof.
  destruct (cache this !! key) as [e|] eqn:He.
  - destruct (Z.gtb_spec (now - timestamp e) (ttl this)) as [Hgt|Hle].
    + assert (Hg : get key now this
                   = (None, {| cache := delete key (cache this);
                               ttl := ttl this |})).
      { unfold get. rewrite He.
        by destruct (Z.gtb_spec (now - timestamp e) (ttl this)); [|lia]. }
      rewrite Hg. simpl. split; [by intros [? ?]|].
      apply get_absent. simpl. apply lookup_delete_eq.
    + rewrite (get_same_kept key now this e He Hle). simpl.
      split; [done|]. by apply get_same_kept.
  - rewrite (get_absent key now this He). simpl.
    split; [by intros [? ?]|]. by apply get_absent.
Qed.

(** After any history of calls the time to live is the constructor's
    argument in milliseconds, [ttlMinutes * 60 * 1000], one hour by
    default. *)
Lemma cache_ttl_fixed (ttlMinutes : option Z) h :
  ttl (run h (@new_Cache T ttlMinutes)) = default 60 ttlMinutes * 60000
  ∧ ttl (run h (@new_Cache T None)) = 3600000.
Proof. rewrite !ttl_run. destruct ttlMinutes; simpl; split; lia. Qed.

Lemma size_step this c :
  (size (cache (step this c))
   ≤ size (cache this) + sets [c])%nat.
Proof.
  destruct c as [[key v|key|] now]; simpl.
  - destruct (cache this !! key) as [e|] eqn:He.
    + rewrite map_size_insert_Some by eauto. lia.
    + rewrite map_size_insert_None by done. lia.
  - unfold get. destruct (cache this !! key) as [e|] eqn:He; [|simpl; lia].
    destruct (_ >? _); simpl; [|lia].
    rewrite map_size_delete_Some by eauto. lia.
  - rewrite map_size_empty. lia.
Qed.

(** X5 (growth only by [set]).  The number of entries after a history is
    at most the number before plus the number of [set] calls: reads and
    [clear] never add an entry. *)
Theorem cache_size_bound this h :
  (size (cache (run h this)) ≤ size (cache this) + sets h)%nat.
Proof.
  revert this. induction h as [|c h IH]; intros this; [simpl; lia|].
  change (run (c :: h) this) with (run h (step this c)).
  pose proof (IH (step this c)). pose proof (size_step this c).
  assert (sets (c :: h) = sets [c] + sets h)%nat
    by (destruct c as [[?|?|] ?]; simpl; lia).
  lia.
Qed.

End CacheMore.

(* ===================================================================== *)
(** * More on the retry executor *)
(* ===================================================================== *)

Section RetryMore.
Import Retry History.
Context {W E T : Type}.
Variable fn : W → (E + T) * W.
Implicit Types (w : W) (lastError : option E) (options : RetryOptions).

Section LoopMore.
Variables maxRetries maxDelay backoffFactor : Q.
Abbreviation loop' := (retry_loop fn maxRetries maxDelay backoffFactor).
Local Open Scope Q_scope.

(** How any run of the loop ends, in terms of the invocations made. *)
Lemma retry_loop_outcome fuel attempt delay lastError w x :
  loop' fuel attempt delay lastError w = Some x →
  world x = world_after fn (invocations (trace x)) w
  ∧ fails_first fn (invocations (trace x) - 1) w
  ∧ match result x, invocations (trace x) with
    | Return v, S n => fst (fn (world_after fn n w)) = inr v
    | Return v, O => False
    | Throw e', S n =>
        ∃ e, e' = Some e ∧ fst (fn (world_after fn n w)) = inl e
    | Throw e', O => e' = lastError
    end.
Proof.
  revert attempt delay lastError w x.
  induction fuel as [|fuel IH]; intros attempt delay lastError w x; [done|].
  simpl. destruct (Qlt_le_dec (inject_Z attempt) maxRetries) as [Hlt|Hge].
  - destruct (fn w) as [[e|v] w'] eqn:Hfn.
    + destruct (Qeq_dec (inject_Z attempt) (maxRetries - 1)) as [Heq|Hne].
      * intros [= <-]. simpl. rewrite Hfn. simpl.
        split; [done|]. split; [intros i Hi; lia|]. by exists e.
      * destruct (loop' fuel _ _ _ _) as [y|] eqn:Hy; [|done].
        intros [= <-]. simpl.
        destruct (IH _ _ _ _ _ Hy) as (Hw & Hf & Hr).
        rewrite Hfn. simpl. split; [done|]. split.
        { intros i Hi. destruct i as [|i]; simpl.
          - exists e. by rewrite Hfn.
          - rewrite Hfn. simpl. apply Hf. lia. }
        destruct (result y) as [v|e'], (invocations (trace y)) as [|n];
          simpl in *; rewrite ?Hfn; simpl; try done.
        subst e'. by exists e.
    + intros [= <-]. simpl. rewrite Hfn. simpl.
      split; [done|]. split; [intros i Hi; lia|done].
  - intros [= <-]. simpl. split; [done|]. split; [intros i Hi; lia|done].
Qed.

(** The counter of the last invocation is within the budget. *)
Lemma retry_loop_invocations fuel attempt delay lastError w x n :
  loop' fuel attempt delay lastError w = Some x →
  invocations (trace x) = S n →
  inject_Z (attempt + Z.of_nat n) < maxRetries.
Proof.
  revert attempt delay lastError w x n.
  induction fuel as [|fuel IH]; intros attempt delay lastError w x n; [done|].
  simpl. destruct (Qlt_le_dec (inject_Z attempt) maxRetries) as [Hlt|Hge].
  - destruct (fn w) as [[e|v] w'] eqn:Hfn.
    + destruct (Qeq_dec (inject_Z attempt) (maxRetries - 1)) as [Heq|Hne].
      * intros [= <-]. simpl. intros [= <-]. by rewrite Z.add_0_r.
      * destruct (loop' fuel _ _ _ _) as [y|] eqn:Hy; [|done].
        intros [= <-]. simpl. intros [= Hn].
        destruct n as [|n]; [by rewrite Z.add_0_r|].
        pose proof (IH _ _ _ _ _ n Hy Hn) as Hb.
        by replace (attempt + Z.of_nat (S n))%Z
          with (attempt + 1 + Z.of_nat n)%Z by lia.
    + intros [= <-]. simpl. intros [= <-]. by rewrite Z.add_0_r.
  - intros [= <-]. done.
Qed.

(** With an integral budget a run of the loop is empty or ends with an
    invocation. *)
Lemma retry_loop_shape (budget : Z) fuel attempt delay lastError w x :
  maxRetries == inject_Z budget →
  loop' fuel attempt delay lastError w = Some x →
  trace x = []
  ∨ ∃ k, trace x = failed_attempts backoffFactor maxDelay k delay ++ [Invoke].
Proof.
  intros Hint. revert attempt delay lastError w x.
  induction fuel as [|fuel IH]; intros attempt delay lastError w x; [done|].
  simpl. destruct (Qlt_le_dec (inject_Z attempt) maxRetries) as [Hlt|Hge].
  - destruct (fn w) as [[e|v] w'] eqn:Hfn.
    + destruct (Qeq_dec (inject_Z attempt) (maxRetries - 1)) as [Heq|Hne].
      * intros [= <-]. right. by exists O.
      * destruct (loop' fuel _ _ _ _) as [y|] eqn:Hy; [|done].
        intros [= <-]. simpl. right.
        destruct (IH _ _ _ _ _ Hy) as [Hnil|[k Hk]].
        -- exfalso. destruct fuel as [|fuel]; [done|]. simpl in Hy.
           destruct (Qlt_le_dec (inject_Z (attempt + 1)) maxRetries)
             as [Hlt'|Hge'].
           ++ destruct (fn w') as [[e'|v'] w''];
                [destruct (Qeq_dec _ _)|]; try by simplify_eq.
              destruct (loop' fuel _ _ _ _); by simplify_eq.
           ++ rewrite Hint in Hlt, Hne, Hge'.
              rewrite <- Zlt_Qlt in Hlt. rewrite <- Zle_Qle in Hge'.
              apply Hne. assert (attempt = budget - 1)%Z as -> by lia.
              unfold Zminus. by rewrite inject_Z_plus.
        -- exists (S k). simpl. by rewrite Hk.
    + intros [= <-]. right. by exists O.
  - intros [= <-]. by left.
Qed.

(** Rejected attempts, none of them the last permitted one by the test
    of the loop: each is followed by a delay, and the error of the last
    is the [lastError] the loop goes on with. *)
Lemma retry_loop_rejections n fuel attempt delay lastError w :
  fails_first fn (S n) w →
  (∀ i, (i ≤ n)%nat →
        inject_Z (attempt + Z.of_nat i) < maxRetries
        ∧ ¬ inject_Z (attempt + Z.of_nat i) == maxRetries - 1) →
  ∃ e, fst (fn (world_after fn n w)) = inl e
     ∧ loop' (S n + fuel) attempt delay lastError w
       = after (failed_attempts backoffFactor maxDelay (S n) delay)
           (loop' fuel (attempt + Z.of_nat (S n))
              (delay_after backoffFactor maxDelay (S n) delay) (Some e)
              (world_after fn (S n) w)).
Proof.
  revert attempt delay lastError w.
  induction n as [|n IH]; intros attempt delay lastError w Hf Hb.
  - destruct (Hf O ltac:(lia)) as [e He]. simpl in He.
    destruct (fn w) as [r w'] eqn:Hfn. simpl in He. subst r.
    destruct (Hb O ltac:(lia)) as [Hlt Hne]. rewrite Z.add_0_r in Hlt, Hne.
    exists e. simpl world_after. rewrite Hfn. split; [done|].
    change (1 + fuel)%nat with (S fuel).
    by rewrite (retry_loop_rejected fn _ _ _ _ _ _ _ _ e w').
  - destruct (Hf O ltac:(lia)) as [e0 He0]. simpl in He0.
    destruct (fn w) as [r w'] eqn:Hfn. simpl in He0. subst r.
    destruct (Hb O ltac:(lia)) as [Hlt Hne]. rewrite Z.add_0_r in Hlt, Hne.
    destruct (IH (attempt + 1)%Z (next_delay backoffFactor maxDelay delay)
                (Some e0) w') as (e & He & Hloop).
    { apply fails_first_tail in Hf. by rewrite Hfn in Hf. }
    { intros i Hi. destruct (Hb (S i) ltac:(lia)) as [H1 H2].
      by replace (attempt + 1 + Z.of_nat i)%Z
        with (attempt + Z.of_nat (S i))%Z by lia. }
    exists e. split.
    { change (world_after fn (S n) w) with (world_after fn n (snd (fn w))).
      by rewrite Hfn. }
    change (S (S n) + fuel)%nat with (S (S n + fuel)).
    rewrite (retry_loop_rejected fn _ _ _ _ _ _ _ _ e0 w') by done.
    rewrite Hloop.
    change (world_after fn (S (S n)) w)
      with (world_after fn (S n) (snd (fn w))).
    rewrite Hfn. simpl snd.
    replace (attempt + 1 + Z.of_nat (S n))%Z
      with (attempt + Z.of_nat (S (S n)))%Z by lia.
    cbn [delay_after failed_attempts].
    match goal with |- after _ (after _ ?o) = _ => by destruct o end.
Qed.

End LoopMore.


(** X7 (the budget bounds the invocations).  Whatever the action does, it
    is invoked at most [ceil(maxRetries)] times, and not at all when
    [maxRetries <= 0]. *)
Theorem retry_invocations_bounded options w :
  ∃ x, withRetry fn options w = Some x
     ∧ (Z.of_nat (invocations (trace x))
        ≤ Z.max 0 (Qceiling (maxRetries_of options)))%Z.
Proof.
  destruct (withRetry_total fn options w) as [x Hx]. exists x.
  split; [done|].
  destruct (invocations (trace x)) as [|n] eqn:Hn; [lia|].
  pose proof (retry_loop_invocations _ _ _ _ _ _ _ _ _ n Hx Hn) as Hb.
  pose proof (Qle_ceiling (maxRetries_of options)) as Hc.
  assert (Z.of_nat n < Qceiling (maxRetries_of options))%Z.
  { rewrite Zlt_Qlt. rewrite Z.add_0_l in Hb. lra. }
  lia.
Qed.

(** X8 (no wait after the last attempt, integral budget).  When
    [maxRetries] is an integer, whatever the action does, the trace of a
    call is empty or is some failed attempts, each followed by its delay,
    and one last invocation: there is one delay fewer than invocations and
    nothing is waited after the last one. *)
Theorem retry_integral_budget_shape (budget : Z) options w :
  (maxRetries_of options == inject_Z budget)%Q →
  ∃ x, withRetry fn options w = Some x
     ∧ (trace x = []
        ∨ ∃ k, trace x
               = failed_attempts (backoffFactor_of options)
                   (maxDelay_of options) k (initialDelay_of options)
                 ++ [Invoke]
             ∧ invocations (trace x) = S k
             ∧ length (delays (trace x)) = k).
Proof.
  intros Hint. destruct (withRetry_total fn options w) as [x Hx]. exists x.
  split; [done|].
  destruct (retry_loop_shape _ _ _ budget _ _ _ _ _ _ Hint Hx) as [?|[k Hk]];
    [by left|right].
  exists k. split; [done|]. rewrite Hk.
  rewrite invocations_app, delays_app, failed_attempts_invocations,
    failed_attempts_delays, app_nil_r, length_delay_values.
  simpl. split; [lia|done].
Qed.

(** X9 (a fractional budget waits once too often).  When [maxRetries] is
    positive and not an integer, an action that always rejects is invoked
    [ceil(maxRetries)] times and every invocation, the last one included,
    is followed by a delay; the error thrown is that of the last
    invocation. *)
Theorem retry_fractional_budget options w :
  always_fails fn →
  (0 < maxRetries_of options)%Q →
  (∀ z : Z, ¬ (maxRetries_of options == inject_Z z)%Q) →
  ∃ e, fst (fn (world_after fn
                  (Z.to_nat (Qceiling (maxRetries_of options)) - 1) w))
       = inl e
     ∧ withRetry fn options w
       = Some {| result := Throw (Some e);
                 trace := failed_attempts (backoffFactor_of options)
                            (maxDelay_of options)
                            (Z.to_nat (Qceiling (maxRetries_of options)))
                            (initialDelay_of options);
                 world := world_after fn
                            (Z.to_nat (Qceiling (maxRetries_of options))) w
              |}.
Proof.
  intros Hf Hpos Hfrac.
  set (m := maxRetries_of options) in *.
  pose proof (Qle_ceiling m) as Hc. pose proof (Qceiling_lt m) as Hc'.
  assert (Hc1 : (1 ≤ Qceiling m)%Z).
  { assert (0 < Qceiling m)%Z; [|lia].
    rewrite Zlt_Qlt. change (inject_Z 0) with 0%Q. lra. }
  set (n := (Z.to_nat (Qceiling m) - 1)%nat).
  assert (Hn : Z.to_nat (Qceiling m) = S n) by lia.
  destruct (retry_loop_rejections m (maxDelay_of options)
              (backoffFactor_of options) n 1 0%Z (initialDelay_of options)
              None w) as (e & He & Hloop).
  { by apply always_fails_first. }
  { intros i Hi. rewrite !Z.add_0_l. split.
    - eapply Qle_lt_trans; [|exact Hc']. rewrite <- Zle_Qle. lia.
    - intros Heq. apply (Hfrac (Z.of_nat i + 1)%Z).
      rewrite inject_Z_plus, Heq.
      change (inject_Z 1) with 1%Q. ring. }
  exists e. split; [done|].
  unfold withRetry. fold m. rewrite Hn.
  replace (S (S n)) with (S n + 1)%nat by lia. rewrite Hloop.
  rewrite retry_loop_exit; [unfold after; simpl; by rewrite app_nil_r|].
  rewrite Z.add_0_l, <- Hn, Z2Nat.id by lia. done.
Qed.

(** X10 (the backoff never shrinks).  For [backoffFactor >= 1] and
    [0 <= initialDelay <= maxDelay], whatever the action does, the delays
    of a call never decrease and stay between [initialDelay] and
    [maxDelay]. *)
Theorem retry_delays_nondecreasing options w :
  (1 <= backoffFactor_of options)%Q →
  (0 <= initialDelay_of options)%Q →
  (initialDelay_of options <= maxDelay_of options)%Q →
  ∃ x, withRetry fn options w = Some x
     ∧ Sorted Qle (delays (trace x))
     ∧ Forall (λ d, initialDelay_of options <= d ∧ d <= maxDelay_of options)%Q
         (delays (trace x)).
Proof.
  intros Hb H0 Hm. destruct (withRetry_total fn options w) as [x Hx].
  exists x. split; [done|].
  destruct (retry_loop_delays _ _ _ _ _ _ _ _ _ x Hx) as [n ->].
  set (b := backoffFactor_of options) in *.
  set (m := maxDelay_of options) in *.
  assert (Hgen : ∀ n d, (0 <= d)%Q → (d <= m)%Q →
            Sorted Qle (delay_values b m n d)
            ∧ Forall (λ d', d <= d' ∧ d' <= m)%Q (delay_values b m n d)).
  { clear -Hb. intros n. induction n as [|n IH]; intros d Hd0 Hdm; simpl.
    - split; constructor.
    - assert (Hnext : (d <= next_delay b m d)%Q ∧ (next_delay b m d <= m)%Q).
      { unfold next_delay. split; [|apply Q.le_min_r].
        apply Q.min_glb; [nra|done]. }
      destruct Hnext as [H1 H2].
      destruct (IH (next_delay b m d)) as [IHs IHf]; [lra|done|].
      split.
      + constructor; [done|]. destruct n; simpl; by constructor.
      + constructor; [split; [apply Qle_refl|done]|].
        eapply Forall_impl; [exact IHf|]. simpl. intros d' [? ?].
        split; [lra|done]. }
  by apply Hgen.
Qed.

End RetryMore.

(* ===================================================================== *)
(** * More on the rate limiter *)
(* ===================================================================== *)

Section RouteMore.
Import Route History.
Implicit Types (ip : string) (requestLog : gmap string (list Z)).
Implicit Types (requests : list (Z * Z)) (accepted : list Z).
Local Open Scope Z_scope.

Lemma recent_app now (l1 l2 : list Z) :
  recent now (l1 ++ l2) = recent now l1 ++ recent now l2.
Proof. unfold recent. apply List.filter_app. Qed.

Lemma recent_recent now now' (l : list Z) :
  now ≤ now' → recent now' (recent now l) = recent now' l.
Proof.
  intros Hle. induction l as [|t l IH]; [done|].
  unfold recent in *. cbn [List.filter]. unfold RATE_LIMIT_WINDOW in *.
  destruct (Z.gtb_spec t (now - 60 * 1000)) as [H1|H1].
  - cbn [List.filter]. by rewrite IH.
  - rewrite IH. by destruct (Z.gtb_spec t (now' - 60 * 1000)); [lia|].
Qed.

Lemma recent_all now (l : list Z) :
  Forall (λ t, now - 60000 < t) l → recent now l = l.
Proof.
  induction 1 as [|t l Ht Hl IH]; [done|].
  unfold recent in *. cbn [List.filter]. unfold RATE_LIMIT_WINDOW in *.
  rewrite IH. by destruct (Z.gtb_spec t (now - 60 * 1000)); [|lia].
Qed.

Lemma length_recent now (l : list Z) : (length (recent now l) ≤ length l)%nat.
Proof. apply List.filter_length_le. Qed.

(** The admission prefix of [POST], by the number of recent requests. *)
Lemma POST_admission_accepted ip now0 now1 requestLog :
  (length (recent now0 (default [] (requestLog !! ip))) < 10)%nat →
  POST_admission ip now0 now1 requestLog
  = (Accepted,
     <[ip := recent now0 (default [] (requestLog !! ip)) ++ [now1]]>
       requestLog).
Proof.
  intros Hlt. unfold POST_admission, isRateLimited, MAX_REQUESTS_PER_WINDOW.
  destruct (Z.geb_spec
              (Z.of_nat
                 (length (recent now0 (default [] (requestLog !! ip))))) 10);
    [lia|].
  unfold logRequest. rewrite lookup_insert_eq. simpl.
  by rewrite insert_insert_eq.
Qed.

Lemma POST_admission_refused ip now0 now1 requestLog :
  (10 ≤ length (recent now0 (default [] (requestLog !! ip))))%nat →
  POST_admission ip now0 now1 requestLog
  = (TooManyRequests,
     <[ip := recent now0 (default [] (requestLog !! ip))]> requestLog).
Proof.
  intros Hge. unfold POST_admission, isRateLimited, MAX_REQUESTS_PER_WINDOW.
  by destruct (Z.geb_spec
                 (Z.of_nat
                    (length (recent now0 (default [] (requestLog !! ip)))))
                 10); [|lia].
Qed.

(** X11 (an earlier check does not change a later one).  When the clock
    has not gone back, checking an identity at [now] and then at [now']
    gives at [now'] the verdict and the log that the check at [now']
    alone gives. *)
Theorem isRateLimited_checks_compose ip now now' requestLog :
  now ≤ now' →
  isRateLimited ip now' (snd (isRateLimited ip now requestLog))
  = isRateLimited ip now' requestLog.
Proof.
  intros Hle. unfold isRateLimited. simpl.
  rewrite lookup_insert_eq. simpl.
  by rewrite recent_recent, insert_insert_eq.
Qed.

(** X12 (identities are never forgotten).  The admission prefix of [POST]
    leaves an entry for the identity it handled, also when that identity
    was unknown or is refused, and removes no other identity. *)
Theorem POST_admission_dom ip now0 now1 requestLog :
  dom (snd (POST_admission ip now0 now1 requestLog))
  = {[ip]} ∪ dom requestLog.
Proof.
  destruct (Nat.lt_ge_cases
              (length (recent now0 (default [] (requestLog !! ip)))) 10).
  - rewrite POST_admission_accepted by done. simpl. apply dom_insert_L.
  - rewrite POST_admission_refused by done. simpl. apply dom_insert_L.
Qed.

(** X13 (the first ten requests).  An identity whose entry, if any, holds
    [n] timestamps has its next [10 - n] requests accepted, whatever the
    clock reads; an unknown identity has its first ten accepted. *)
Theorem first_requests_accepted ip requests requestLog :
  (length (default [] (requestLog !! ip)) + length requests ≤ 10)%nat →
  fst (admissions ip requests requestLog)
  = replicate (length requests) Accepted.
Proof.
  revert requestLog.
  induction requests as [|[now0 now1] requests IH]; intros requestLog Hlen;
    [done|].
  pose proof (length_recent now0 (default [] (requestLog !! ip))).
  simpl in *. rewrite POST_admission_accepted by lia.
  specialize (IH (<[ip := recent now0 (default [] (requestLog !! ip))
                           ++ [now1]]> requestLog)).
  destruct (admissions ip requests _) as [verdicts log'].
  simpl in *. rewrite IH; [done|].
  rewrite lookup_insert_eq. simpl. rewrite length_app. simpl. lia.
Qed.

Lemma admissions_sliding_window ip requests requestLog accepted from :
  (∀ now, from ≤ now →
     recent now (default [] (requestLog !! ip)) = recent now accepted) →
  monotone from requests →
  fst (admissions ip requests requestLog) = sliding_window accepted requests.
Proof.
  revert requestLog accepted from.
  induction requests as [|[now0 now1] requests IH];
    intros requestLog accepted from Hinv Hmono; [done|].
  destruct Hmono as (H0 & H1 & Hmono). cbn [admissions sliding_window].
  rewrite <- recent_filter, <- (Hinv now0 H0).
  destruct (Nat.leb_spec 10
              (length (recent now0 (default [] (requestLog !! ip)))))
    as [Hge|Hlt].
  - rewrite POST_admission_refused by done.
    specialize (IH (<[ip := recent now0 (default [] (requestLog !! ip))]>
                      requestLog) accepted now1).
    destruct (admissions ip requests _) as [verdicts log'].
    simpl in *. rewrite IH; [done| |done].
    intros now Hnow. rewrite lookup_insert_eq. simpl.
    rewrite recent_recent by lia. apply Hinv. lia.
  - rewrite POST_admission_accepted by done.
    specialize (IH (<[ip := recent now0 (default [] (requestLog !! ip))
                             ++ [now1]]> requestLog)
                  (accepted ++ [now1]) now1).
    destruct (admissions ip requests _) as [verdicts log'].
    simpl in *. rewrite IH; [done| |done].
    intros now Hnow. rewrite lookup_insert_eq. simpl.
    rewrite !recent_app, recent_recent by lia. f_equal. apply Hinv. lia.
Qed.

(** X14 (the limiter is a sliding window).  While the clock does not go
    back, the verdicts [POST] gives to the successive requests of an
    identity are those of a window that never prunes: a request read at
    [now0] is refused exactly when ten of the requests accepted before it
    were recorded later than [now0 - 60000]. *)
Theorem limiter_is_sliding_window ip requests requestLog from :
  monotone from requests →
  fst (admissions ip requests requestLog)
  = sliding_window (default [] (requestLog !! ip)) requests.
Proof. intros Hmono. by apply (admissions_sliding_window _ _ _ _ from). Qed.

Lemma sliding_window_burst accepted requests t :
  Forall (λ a, t ≤ a) accepted →
  monotone t requests →
  Forall (λ r, fst r < t + 60000) requests →
  sliding_window accepted requests
  = replicate (min (10 - length accepted) (length requests)) Accepted
    ++ replicate (length requests - (10 - length accepted)) TooManyRequests.
Proof.
  revert accepted t.
  induction requests as [|[now0 now1] requests IH];
    intros accepted t Hacc Hmono Hwin; [by rewrite Nat.min_0_r|].
  destruct Hmono as (H0 & H1 & Hmono).
  apply Forall_cons in Hwin as [Hnow0 Hwin]. simpl in Hnow0.
  assert (Hall : filter (λ a, now0 - 60000 < a) accepted = accepted).
  { rewrite <- recent_filter. apply recent_all.
    eapply Forall_impl; [exact Hacc|]. simpl. intros; lia. }
  cbn [sliding_window]. rewrite Hall.
  assert (Hmono' : monotone t requests).
  { clear -Hmono H0 H1. destruct requests as [|[a b] requests]; [done|].
    destruct Hmono as (Ha & Hb & Hrest). simpl. split; [lia|done]. }
  destruct (Nat.leb_spec 10 (length accepted)) as [Hge|Hlt].
  - rewrite (IH accepted t) by done.
    replace (10 - length accepted)%nat with O by lia. simpl.
    by replace (length requests - 0)%nat with (length requests) by lia.
  - rewrite (IH (accepted ++ [now1]) t); [| |done..].
    + rewrite length_app. simpl.
      replace (10 - length accepted)%nat
        with (S (10 - (length accepted + 1))) by lia.
      simpl. done.
    + apply Forall_app. split; [done|]. constructor; [lia|constructor].
Qed.

(** X15 (a burst).  When the requests of a so far unknown identity are
    all read within less than 60000 ms of the first, on a clock that does
    not go back, the first ten are accepted and every further one is
    refused. *)
Theorem limiter_burst ip requests requestLog t :
  requestLog !! ip = None →
  monotone t requests →
  Forall (λ r, fst r < t + 60000) requests →
  fst (admissions ip requests requestLog)
  = replicate (min 10 (length requests)) Accepted
    ++ replicate (length requests - 10) TooManyRequests.
Proof.
  intros Hnew Hmono Hwin.
  rewrite (admissions_sliding_window ip requests requestLog [] t);
    [|by rewrite Hnew|done].
  by rewrite (sliding_window_burst [] requests t).
Qed.

End RouteMore.

(* ===================================================================== *)
(** * The bracketed part of an answer *)
(* ===================================================================== *)

Section MatchFacts.
Import Text.
Abbreviation chars := String.list_ascii_of_string.

Lemma from_open_none s : from_open s = None → ¬ In "["%char (chars s).
Proof.
  induction s as [|c s IH]; simpl; [tauto|].
  destruct (Ascii.eqb_spec c "["); [done|].
  intros Hs [Hc|Hin]; [done|]. by apply IH.
Qed.

Lemma from_open_some s t :
  from_open s = Some t →
  ∃ pre rest, s = pre +:+ String "[" rest ∧ t = String "[" rest
            ∧ ¬ In "["%char (chars pre).
Proof.
  revert t. induction s as [|c s IH]; intros t; simpl; [done|].
  destruct (Ascii.eqb_spec c "[") as [->|Hne].
  - intros [= <-]. exists ""%string, s. simpl. tauto.
  - intros Ht. destruct (IH _ Ht) as (pre & rest & -> & -> & Hpre).
    exists (String c pre), rest. simpl. split; [done|]. split; [done|].
    intros [?|?]; [done|tauto].
Qed.

Lemma from_open_intro pre rest :
  ¬ In "["%char (chars pre) →
  from_open (pre +:+ String "[" rest) = Some (String "[" rest).
Proof.
  induction pre as [|c pre IH]; simpl; intros Hpre; [done|].
  destruct (Ascii.eqb_spec c "[") as [->|Hne]; [tauto|].
  apply IH. tauto.
Qed.

Lemma upto_close_none s : upto_close s = None → ¬ In "]"%char (chars s).
Proof.
  induction s as [|c s IH]; simpl; [tauto|].
  destruct (upto_close s); [done|].
  destruct (Ascii.eqb_spec c "]"); [done|].
  intros _ [Hc|Hin]; [done|]. by apply IH.
Qed.

Lemma upto_close_absent s : ¬ In "]"%char (chars s) → upto_close s = None.
Proof.
  induction s as [|c s IH]; simpl; [done|]. intros Hs.
  rewrite IH by tauto.
  destruct (Ascii.eqb_spec c "]") as [->|Hne]; [tauto|done].
Qed.

Lemma upto_close_some s p :
  upto_close s = Some p →
  ∃ mid post, s = mid +:+ String "]" post ∧ p = mid +:+ "]"
            ∧ ¬ In "]"%char (chars post).
Proof.
  revert p. induction s as [|c s IH]; intros p; simpl; [done|].
  destruct (upto_close s) as [q|] eqn:Hq.
  - intros [= <-]. destruct (IH _ eq_refl) as (mid & post & -> & -> & Hpost).
    by exists (String c mid), post.
  - destruct (Ascii.eqb_spec c "]") as [->|Hne]; [|done].
    intros [= <-]. exists ""%string, s. simpl.
    split; [done|]. split; [done|]. by apply upto_close_none.
Qed.

Lemma upto_close_intro mid post :
  ¬ In "]"%char (chars post) →
  upto_close (mid +:+ String "]" post) = Some (mid +:+ "]").
Proof.
  intros Hpost. induction mid as [|c mid IH]; simpl.
  - by rewrite upto_close_absent.
  - by rewrite IH.
Qed.

(** X16 (what the pattern matches).  [match(/\[[\s\S]*\]/)] succeeds
    exactly when the answer has a ["]"] after its first ["["], and what
    it returns is the part of the answer from the first ["["] to the
    last ["]"], both included. *)
Theorem match_array_spec s m :
  match_array s = Some m
  ↔ ∃ pre mid post,
      s = pre +:+ "[" +:+ mid +:+ "]" +:+ post
      ∧ ¬ In "["%char (chars pre)
      ∧ ¬ In "]"%char (chars post)
      ∧ m = "[" +:+ mid +:+ "]".
Proof.
  unfold match_array. split.
  - destruct (from_open s) as [[|c rest]|] eqn:Hs; [done| |done].
    destruct (from_open_some _ _ Hs) as (pre & rest' & -> & [= -> ->] & Hpre).
    destruct (upto_close rest') as [p|] eqn:Hp; [|done].
    destruct (upto_close_some _ _ Hp) as (mid & post & -> & -> & Hpost).
    intros [= <-]. by exists pre, mid, post.
  - intros (pre & mid & post & -> & Hpre & Hpost & ->).
    change ("[" +:+ mid +:+ "]" +:+ post)%string
      with (String "[" (mid +:+ String "]" post)).
    rewrite from_open_intro by done.
    by rewrite upto_close_intro.
Qed.

End MatchFacts.

(* ===================================================================== *)
(** * Validation and parsing of an answer *)
(* ===================================================================== *)

Section ValidationFacts.
Import Json FactCheck.

Lemma every_string_spec items :
  every_string (Some (JArray items)) = true
  ↔ ∃ sources : list string, items = JString <$> sources.
Proof.
  simpl. induction items as [|item items IH]; simpl.
  - split; [by exists []|done].
  - rewrite andb_true_iff, IH. split.
    + intros [Hitem [sources ->]].
      destruct item as [|b|n|s|l|ms]; try done. by exists (s :: sources).
    + intros [[|s sources] Heq]; [done|]. injection Heq as -> ->.
      split; [done|]. by exists sources.
Qed.

Lemma isValid_object members :
  isValidFactCheckResult (JObject members) = Some true
  ↔ well_formed (JObject members).
Proof.
  unfold isValidFactCheckResult, well_formed. simpl. split.
  - destruct (member "text" members) as [[| | |text| |]|] eqn:Ht; simpl;
      try done.
    destruct (member "result" members) as [[| | |result| |]|] eqn:Hr; simpl;
      try done.
    case_bool_decide as Hin; simpl; [|done].
    destruct (member "explanation" members) as [[| | |explanation| |]|]
      eqn:He; simpl; try done.
    destruct (member "sources" members) as [[| | | |items|]|] eqn:Hs; simpl;
      try done.
    intros [= Hall]. apply every_string_spec in Hall as [sources ->].
    by exists members, text, result, explanation, sources.
  - intros (ms & text & result & explanation & sources
            & [= <-] & -> & -> & Hin & -> & ->).
    simpl. rewrite bool_decide_eq_true_2 by done. simpl.
    f_equal. apply every_string_spec. by exists sources.
Qed.

Lemma isValid_not_null obj :
  obj ≠ JNull → is_Some (isValidFactCheckResult obj).
Proof.
  destruct obj as [|b|n|s|l|ms]; try done; intros _; try by eexists.
  unfold isValidFactCheckResult. simpl.
  destruct (member "text" ms) as [[| | |text| |]|]; simpl; try by eexists.
  destruct (member "result" ms) as [[| | |result| |]|]; simpl;
    try by eexists.
  case_bool_decide; simpl; [|by eexists].
  destruct (member "explanation" ms) as [[| | |explanation| |]|];
    simpl; try by eexists.
  destruct (member "sources" ms) as [[| | | |items|]|]; simpl; by eexists.
Qed.

Lemma isValidFactCheckResult_none obj :
  isValidFactCheckResult obj = None → obj = JNull.
Proof.
  intros Hnone. destruct obj as [|b|n|s|l|ms]; [done|..];
    (edestruct isValid_not_null as [? Hb];
     [|rewrite Hb in Hnone; discriminate Hnone]; done).
Qed.

Lemma isValidFactCheckResult_true obj :
  isValidFactCheckResult obj = Some true ↔ well_formed obj.
Proof.
  destruct obj as [|b|n|s|l|ms]; try apply isValid_object;
    (split; [done|]);
    by intros (ms' & ? & ? & ? & ? & [=] & _).
Qed.

(** X17 (what the validator accepts).  [isValidFactCheckResult] throws
    on [null] and on nothing else, and it returns true exactly for an
    object whose [text] and [explanation] are strings, whose [result] is
    one of the five verdicts and whose [sources] is an array of strings;
    further members of the object are not looked at, and arrays, numbers,
    strings and booleans are refused without an error. *)
Theorem isValidFactCheckResult_spec obj :
  (isValidFactCheckResult obj = None ↔ obj = JNull)
  ∧ (isValidFactCheckResult obj = Some true ↔ well_formed obj).
Proof.
  split.
  - split; [apply isValidFactCheckResult_none|by intros ->].
  - apply isValidFactCheckResult_true.
Qed.

End ValidationFacts.

Section ParseFacts.
Import Json FactCheck.
Context {W X : Type}.
Variable generateText : string → W → (thrown X + string) * W.
Variable JSON_parse : string → option value.
Variable TypeError_null : thrown X.
Abbreviation parse := (@parse_response X JSON_parse).

Lemma filter_valid_none items : filter_valid items = None ↔ JNull ∈ items.
Proof.
  induction items as [|item items IH]; simpl.
  - split; [done|]. by intros ?%not_elem_of_nil.
  - rewrite elem_of_cons, <- IH.
    destruct (isValidFactCheckResult item) as [keep|] eqn:Hitem; simpl.
    + destruct (filter_valid items) as [rest|]; simpl.
      * split; [done|]. intros [<-|?]; [by cbv in Hitem|done].
      * split; [by right|done].
    + apply isValidFactCheckResult_none in Hitem. subst item.
      split; [by left|done].
Qed.

Lemma filter_valid_some items results :
  filter_valid items = Some results →
  results `sublist_of` items
  ∧ ∀ v, v ∈ results ↔ v ∈ items ∧ well_formed v.
Proof.
  revert results. induction items as [|item items IH]; intros results; simpl.
  - intros [= <-]. split; [done|]. intros v. split; [by intros ?%not_elem_of_nil|].
    by intros [?%not_elem_of_nil _].
  - destruct (isValidFactCheckResult item) as [keep|] eqn:Hitem; [|done].
    destruct (filter_valid items) as [rest|]; [|done]. simpl.
    destruct (IH rest eq_refl) as [Hsub Hin]. intros [= <-].
    destruct keep.
    + apply isValidFactCheckResult_true in Hitem.
      split; [by apply sublist_skip|]. intros v.
      rewrite !elem_of_cons, Hin. split.
      * intros [->|[? ?]]; [by split; [left|]|by split; [right|]].
      * intros [[->|?] ?]; [by left|by right].
    + split; [by apply sublist_cons|]. intros v.
      rewrite elem_of_cons, Hin. split; [intros [? ?]; by split; [right|]|].
      intros [[->|?] Hv]; [|done].
      apply isValidFactCheckResult_true in Hv. congruence.
Qed.

(** What the [try] block returns, when it returns. *)
Lemma validated_some r results :
  validated JSON_parse r = Some results →
  ∃ items,
    match Text.match_array r with
    | Some m => JSON_parse m = Some (JArray items)
    | None => items = []
    end
    ∧ results `sublist_of` items
    ∧ (∀ v, v ∈ results ↔ v ∈ items ∧ well_formed v)
    ∧ (results = [] → items = []).
Proof.
  unfold validated.
  destruct (Text.match_array r) as [m|].
  - destruct (JSON_parse m) as [[| | | |items|]|]; simpl; try done.
    destruct (filter_valid items) as [rs|] eqn:Hrs; simpl; [|done].
    destruct (filter_valid_some _ _ Hrs) as [Hsub Hin].
    destruct rs as [|v rs], items as [|item items]; simpl;
      intros [= <-]; eexists; (split; [done|]); (split; [done|]);
      by split.
  - simpl. intros [= <-]. exists []. split; [done|]. split; [done|].
    split; [|done]. intros v. split; [by intros ?%not_elem_of_nil|].
    by intros [?%not_elem_of_nil _].
Qed.

(** When the [try] block throws. *)
Lemma validated_none r :
  validated JSON_parse r = None
  ↔ ∃ m, Text.match_array r = Some m
       ∧ match JSON_parse m with
         | Some (JArray items) =>
             JNull ∈ items
             ∨ (items ≠ [] ∧ ∀ v, v ∈ items → ¬ well_formed v)
         | _ => True
         end.
Proof.
  unfold validated. destruct (Text.match_array r) as [m|]; simpl.
  - split.
    + intros Hnone. exists m. split; [done|].
      destruct (JSON_parse m) as [[| | | |items|]|]; simpl in *; try done.
      destruct (filter_valid items) as [rs|] eqn:Hrs; simpl in *.
      * destruct (filter_valid_some _ _ Hrs) as [Hsub Hin].
        destruct rs as [|v rs]; [|done].
        destruct items as [|item items]; [done|]. right. split; [done|].
        intros v Hv Hwf. by apply (not_elem_of_nil v), Hin.
      * left. by apply filter_valid_none.
    + intros (m' & [= <-] & Hm).
      destruct (JSON_parse m) as [[| | | |items|]|]; simpl; try done.
      destruct (filter_valid items) as [rs|] eqn:Hrs; simpl; [|done].
      destruct Hm as [Hnull|[Hne Hbad]].
      * apply filter_valid_none in Hnull. congruence.
      * destruct (filter_valid_some _ _ Hrs) as [Hsub Hin].
        destruct rs as [|v rs].
        -- by destruct items.
        -- exfalso. destruct (proj1 (Hin v) ltac:(left)) as [Hv Hwf].
           by apply (Hbad v).
  - split; [done|]. by intros (m & [=] & _).
Qed.

Lemma parse_response_shape r results :
  parse r = inr results →
  Forall well_formed results ∧ validated JSON_parse r = Some results.
Proof.
  unfold parse_response.
  destruct (validated JSON_parse r) as [rs|] eqn:Hrs; [|done].
  intros [= <-]. split; [|done].
  destruct (validated_some _ _ Hrs) as (items & _ & _ & H3 & _).
  apply Forall_forall. intros v Hv. by apply H3.
Qed.

(** X18 (what a parsed answer holds).  When the action accepts an
    answer, every result it returns has the shape of a fact-check result,
    and the results are the well-formed elements of the array in the
    answer, in their order, the others being dropped; they are none only
    if that array is empty or the answer has no bracketed part. *)
Theorem parse_response_results r results :
  parse r = inr results →
  Forall well_formed results
  ∧ ∃ items,
      match Text.match_array r with
      | Some m => JSON_parse m = Some (JArray items)
      | None => items = []
      end
      ∧ results `sublist_of` items
      ∧ (∀ v, v ∈ results ↔ v ∈ items ∧ well_formed v)
      ∧ (results = [] → items = []).
Proof.
  intros Hr. destruct (parse_response_shape r results Hr) as [Hwf Hrs].
  split; [done|]. by apply validated_some.
Qed.

(** X19 (an answer without brackets).  When the answer of the model has
    no ["["], or no ["]"] after the first ["["], the action resolves with
    the empty list: nothing is parsed, no error is raised and nothing is
    retried. *)
Theorem parse_response_no_array r :
  (¬ In "["%char (String.list_ascii_of_string r)
   ∨ ∃ pre rest, r = pre +:+ String "[" rest
               ∧ ¬ In "["%char (String.list_ascii_of_string pre)
               ∧ ¬ In "]"%char (String.list_ascii_of_string rest)) →
  Text.match_array r = None ∧ parse r = inr [].
Proof.
  intros Hr.
  assert (Hnone : Text.match_array r = None).
  { unfold Text.match_array. destruct Hr as [Hno|(pre & rest & -> & Hpre & Hrest)].
    - destruct (Text.from_open r) as [t|] eqn:Ht; [|done].
      destruct (from_open_some _ _ Ht) as (pre & rest & -> & -> & _).
      exfalso. apply Hno. clear. induction pre as [|c pre IH]; simpl; tauto.
    - rewrite from_open_intro by done. by rewrite upto_close_absent. }
  split; [done|]. unfold parse_response, validated. by rewrite Hnone.
Qed.

(** X20 (when and how parsing fails).  The action rejects an answer
    exactly when its bracketed part is not JSON, or is not an array, or
    is an array that holds [null] (even beside well-formed results), or
    is a non-empty array without a well-formed result; the error is
    always ["Failed to parse fact-check results: "] followed by the
    answer as received. *)
Theorem parse_response_failure r e :
  parse r = inl e
  ↔ e = Error ("Failed to parse fact-check results: " +:+ r)
    ∧ ∃ m, Text.match_array r = Some m
         ∧ match JSON_parse m with
           | Some (JArray items) =>
               JNull ∈ items
               ∨ (items ≠ [] ∧ ∀ v, v ∈ items → ¬ well_formed v)
           | _ => True
           end.
Proof.
  rewrite <- validated_none. unfold parse_response.
  destruct (validated JSON_parse r) as [rs|]; split.
  - done.
  - by intros [_ ?].
  - by intros [= <-].
  - by intros [-> _].
Qed.

Abbreviation perform := (@performFactCheck W X generateText JSON_parse).
Abbreviation act := (@action W X generateText JSON_parse).

Lemma action_results text w results :
  fst (act text w) = inr results → Forall well_formed results.
Proof.
  unfold action. destruct (generateText text w) as [[e|r] w']; [done|].
  simpl. intros Hr. by destruct (parse_response_shape r results Hr).
Qed.

Lemma retry_loop_invoked {A B C : Type} (fn : A → (B + C) * A)
    maxRetries maxDelay backoffFactor fuel attempt delay lastError w x :
  (inject_Z attempt < maxRetries)%Q →
  Retry.retry_loop fn maxRetries maxDelay backoffFactor (S fuel) attempt delay
    lastError w = Some x →
  ∃ n, Retry.invocations (Retry.trace x) = S n.
Proof.
  intros Hlt. simpl.
  destruct (Qlt_le_dec (inject_Z attempt) maxRetries); [|lra].
  destruct (fn w) as [[e|v] w'].
  - destruct (Qeq_dec _ _).
    + intros [= <-]. by exists O.
    + destruct (Retry.retry_loop _ _ _ _ _ _ _ _ _) as [y|]; [|done].
      intros [= <-]. simpl. by eexists.
  - intros [= <-]. by exists O.
Qed.

(** How [performFactCheck] can end. *)
Lemma performFactCheck_cases text w :
  ∃ x k, perform text w = Some x
       ∧ (k ≤ 2)%nat
       ∧ Retry.trace x
         = Retry.failed_attempts 2 5000 k 1000 ++ [Retry.Invoke]
       ∧ (∀ results,
            Retry.result x = Retry.Return results →
            Forall well_formed results)
       ∧ Retry.result x ≠ Retry.Throw None.
Proof.
  unfold performFactCheck.
  destruct (withRetry_total (act text) retry_options w) as [x Hx].
  exists x. unfold Retry.withRetry in Hx.
  assert (Hlt : (inject_Z 0 < Retry.maxRetries_of retry_options)%Q)
    by reflexivity.
  assert (Hint : (Retry.maxRetries_of retry_options == inject_Z 3)%Q)
    by reflexivity.
  destruct (retry_loop_invoked _ _ _ _ _ _ _ _ _ _ Hlt Hx) as [n Hn].
  destruct (retry_loop_outcome _ _ _ _ _ _ _ _ _ _ Hx) as (_ & _ & Hr).
  pose proof (retry_loop_invocations _ _ _ _ _ _ _ _ _ _ n Hx Hn) as Hb.
  destruct (retry_loop_shape (act text) _ _ _ 3 _ _ _ _ _ _ Hint Hx)
    as [Hnil|[k Hk]]; [by rewrite Hnil in Hn|].
  exists k. rewrite Hn in Hr.
  assert (k = n) as ->.
  { rewrite Hk, invocations_app, failed_attempts_invocations in Hn.
    simpl in Hn. lia. }
  split; [done|]. split.
  { rewrite Z.add_0_l in Hb. change (Retry.maxRetries_of retry_options)
      with (inject_Z 3) in Hb. rewrite <- Zlt_Qlt in Hb. lia. }
  split; [done|]. split.
  - intros results Hres. rewrite Hres in Hr. by apply action_results in Hr.
  - intros Hres. rewrite Hres in Hr. by destruct Hr as (e & [=] & _).
Qed.


Abbreviation post := (@POST W X generateText JSON_parse TypeError_null).
Implicit Types (req : request X) (now : clock) (s : @server W).

(** The timestamps of the identity of [req] that the check of [POST]
    keeps. *)
Abbreviation kept req now s :=
  (Route.recent (at_check now)
     (default [] (requestLog s !! identity req))).

(** The state once the request has been recorded. *)
Abbreviation recorded req now s :=
  {| requestLog :=
       <[identity req := kept req now s ++ [at_record now]]> (requestLog s);
     factCheckCache := factCheckCache s;
     provider := provider s |}.

Lemma isRateLimited_eq ip t (log : gmap string (list Z)) :
  Route.isRateLimited ip t log
  = (bool_decide (10 ≤ length (Route.recent t (default [] (log !! ip))))%nat,
     <[ip := Route.recent t (default [] (log !! ip))]> log).
Proof.
  unfold Route.isRateLimited, Route.MAX_REQUESTS_PER_WINDOW. f_equal.
  destruct (Z.geb_spec
              (Z.of_nat (length (Route.recent t (default [] (log !! ip)))))
              10).
  - by rewrite bool_decide_eq_true_2 by lia.
  - by rewrite bool_decide_eq_false_2 by lia.
Qed.

Lemma logRequest_insert ip t (l : list Z) (log : gmap string (list Z)) :
  Route.logRequest ip t (<[ip := l]> log) = <[ip := l ++ [t]]> log.
Proof.
  unfold Route.logRequest. rewrite lookup_insert_eq. simpl.
  by rewrite insert_insert_eq.
Qed.

Lemma get_miss_absent {V : Type} key t (c : Cache.Cache V) :
  fst (Cache.get key t c) = None →
  Cache.cache (snd (Cache.get key t c)) !! key = None.
Proof.
  unfold Cache.get. destruct (Cache.cache c !! key) as [e|] eqn:He; [|done].
  destruct (_ >? _)%Z; [|done]. simpl. intros _. apply lookup_delete_eq.
Qed.

Lemma accepted_text_not_null data text :
  accepted_text data = Some text → data ≠ JNull.
Proof. by intros Ht ->. Qed.

(** [POST] once the request is accepted and its body gives a text. *)
Lemma POST_text req now s data text :
  (length (kept req now s) < 10)%nat →
  json req = inr data → accepted_text data = Some text →
  post req now s
  = let '(cachedResult, cache) :=
      Cache.get text (at_get now) (factCheckCache s) in
    match cachedResult with
    | Some result =>
        Some (ok result, [],
              {| requestLog := requestLog (recorded req now s);
                 factCheckCache := cache; provider := provider s |})
    | None =>
        x ← perform text (provider s);
        match Retry.result x with
        | Retry.Return result =>
            Some (ok result, Retry.trace x,
                  {| requestLog := requestLog (recorded req now s);
                     factCheckCache :=
                       Cache.set text result (at_set now) cache;
                     provider := Retry.world x |})
        | Retry.Throw error =>
            Some (failure error, Retry.trace x,
                  {| requestLog := requestLog (recorded req now s);
                     factCheckCache := cache; provider := Retry.world x |})
        end
    end.
Proof.
  intros Hlt Hjson Htext. unfold POST.
  rewrite isRateLimited_eq, bool_decide_eq_false_2 by lia.
  rewrite logRequest_insert, Hjson.
  pose proof (accepted_text_not_null _ _ Htext).
  destruct data; try done; by rewrite Htext.
Qed.

Lemma POST_when_refused req now s :
  (10 ≤ length (kept req now s))%nat →
  post req now s
  = Some (too_many_requests, [],
          {| requestLog := <[identity req := kept req now s]> (requestLog s);
             factCheckCache := factCheckCache s;
             provider := provider s |}).
Proof.
  intros Hge. unfold POST.
  by rewrite isRateLimited_eq, bool_decide_eq_true_2 by lia.
Qed.

(** [POST] once the request is accepted and its body gives no text. *)
Lemma POST_without_text req now s :
  (length (kept req now s) < 10)%nat →
  match json req with
  | inl _ => True
  | inr data => accepted_text data = None
  end →
  post req now s
  = Some (match json req with
          | inl error => failure (Some error)
          | inr JNull => failure (Some TypeError_null)
          | inr _ => invalid_input
          end, [], recorded req now s).
Proof.
  intros Hlt Hbody. unfold POST.
  rewrite isRateLimited_eq, bool_decide_eq_false_2 by lia.
  rewrite logRequest_insert.
  destruct (json req) as [e|data]; [done|].
  destruct data; try done; by rewrite Hbody.
Qed.

(** X22 (a refused request).  When ten timestamps of the identity are
    newer than [now - 60000], [POST] answers 429 and does nothing else:
    the request is not recorded, the cache is not read and the provider
    is not called; only the log entry of the identity is pruned. *)
Theorem POST_refused req now s :
  (10 ≤ length (kept req now s))%nat →
  post req now s
  = Some (too_many_requests, [],
          {| requestLog := <[identity req := kept req now s]> (requestLog s);
             factCheckCache := factCheckCache s;
             provider := provider s |}).
Proof. apply POST_when_refused. Qed.

(** X23 (an unusable body still counts).  When the request is accepted by
    the limiter but its body cannot be read, is [null], or has no
    non-empty string under [text], [POST] answers 500 or 400 without
    reading the cache or calling the provider, and the request has been
    recorded in the log all the same. *)
Theorem POST_unusable_body req now s :
  (length (kept req now s) < 10)%nat →
  match json req with
  | inl _ => True
  | inr data => accepted_text data = None
  end →
  ∃ answer, post req now s = Some (answer, [], recorded req now s)
          ∧ (status answer = 400%Z ∨ status answer = 500%Z)
          ∧ (status answer = 400%Z
             ↔ ∃ data, json req = inr data ∧ data ≠ JNull).
Proof.
  intros Hlt Hbody. rewrite POST_without_text by done.
  eexists. split; [done|].
  destruct (json req) as [e|data].
  - split; [by right|]. split; [done|]. by intros (data & [=] & _).
  - destruct data.
    + split; [by right|]. split; [done|]. by intros (data & [= <-] & ?).
    + split; [by left|]. split; [by eauto|done].
    + split; [by left|]. split; [by eauto|done].
    + split; [by left|]. split; [by eauto|done].
    + split; [by left|]. split; [by eauto|done].
    + split; [by left|]. split; [by eauto|done].
Qed.

(** X24 (a cached text).  When the text of an accepted request has a
    live entry in the cache, [POST] answers 200 with the cached results,
    does not call the provider, and leaves the cache as it is. *)
Theorem POST_cache_hit req now s data text results :
  (length (kept req now s) < 10)%nat →
  json req = inr data → accepted_text data = Some text →
  fst (Cache.get text (at_get now) (factCheckCache s)) = Some results →
  post req now s = Some (ok results, [], recorded req now s).
Proof.
  intros Hlt Hjson Htext Hhit. rewrite (POST_text _ _ _ data text) by done.
  destruct (Cache.get text (at_get now) (factCheckCache s)) as [r c] eqn:Hget.
  simpl in Hhit. subst r. do 3 f_equal.
  unfold Cache.get in Hget.
  destruct (Cache.cache (factCheckCache s) !! text) as [e|]; [|done].
  destruct (_ >? _)%Z; [done|]. by injection Hget as _ <-.
Qed.

(** X25 (a failure is not cached).  When the text of an accepted request
    is not in the cache and [performFactCheck] throws, [POST] answers 500
    with the message of the error (["Unknown error"] when the thrown
    value is not an [Error]), and stores nothing: the text still has no
    entry afterwards, so the next request for it calls the provider
    again. *)
Theorem POST_failure_not_cached req now s data text x error :
  (length (kept req now s) < 10)%nat →
  json req = inr data → accepted_text data = Some text →
  fst (Cache.get text (at_get now) (factCheckCache s)) = None →
  perform text (provider s) = Some x →
  Retry.result x = Retry.Throw error →
  ∃ s', post req now s = Some (failure error, Retry.trace x, s')
      ∧ provider s' = Retry.world x
      ∧ requestLog s' = requestLog (recorded req now s)
      ∧ ∀ t, fst (Cache.get text t (factCheckCache s')) = None.
Proof.
  intros Hlt Hjson Htext Hmiss Hx Hres.
  rewrite (POST_text _ _ _ data text) by done.
  pose proof (get_miss_absent _ _ _ Hmiss) as Habsent.
  destruct (Cache.get text (at_get now) (factCheckCache s)) as [r c].
  simpl in *. subst r. rewrite Hx. simpl. rewrite Hres.
  eexists. split; [done|]. simpl. split; [done|]. split; [done|].
  intros t. by rewrite get_absent.
Qed.

(** X26 (a success is cached).  When the text of an accepted request is
    not in the cache and [performFactCheck] returns, [POST] answers 200
    with the results and stores them; a later accepted request for the
    same text, read no more than the TTL after the store and before any
    other call touches the cache, is answered 200 with the same results
    without calling the provider. *)
Theorem POST_success_cached req now s data text x results :
  (length (kept req now s) < 10)%nat →
  json req = inr data → accepted_text data = Some text →
  fst (Cache.get text (at_get now) (factCheckCache s)) = None →
  perform text (provider s) = Some x →
  Retry.result x = Retry.Return results →
  ∃ s', post req now s = Some (ok results, Retry.trace x, s')
      ∧ provider s' = Retry.world x
      ∧ ∀ req' now' data',
          (length (kept req' now' s') < 10)%nat →
          json req' = inr data' → accepted_text data' = Some text →
          (at_get now' - at_set now ≤ Cache.ttl (factCheckCache s))%Z →
          post req' now' s' = Some (ok results, [], recorded req' now' s').
Proof.
  intros Hlt Hjson Htext Hmiss Hx Hres.
  rewrite (POST_text _ _ _ data text) by done.
  pose proof (ttl_get text (at_get now) (factCheckCache s)) as Httl.
  destruct (Cache.get text (at_get now) (factCheckCache s)) as [r c].
  simpl in *. subst r. rewrite Hx. simpl. rewrite Hres.
  eexists. split; [done|]. simpl. split; [done|].
  intros req' now' data' Hlt' Hjson' Htext' Hfresh.
  rewrite (POST_text _ _ _ data' text) by done. simpl.
  rewrite (get_same_kept text (at_get now')
             (Cache.set text results (at_set now) c)
             {| Cache.value := results; Cache.timestamp := at_set now |});
    [done|apply lookup_insert_eq|simpl; lia].
Qed.

(** X27 ([POST] always answers).  Whatever the request, the clock, the
    state and the provider, [POST] answers with status 200, 400, 429 or
    500 after at most three calls of the provider; it answers 429 exactly
    when the admission prefix refuses the identity of the request, which
    is ["unknown"] when the header [x-forwarded-for] is missing or
    empty; and the log it leaves is the one the admission prefix leaves,
    whatever happens afterwards. *)
Theorem POST_always_answers req now s :
  let ip := match x_forwarded_for req with
            | None | Some ""%string => "unknown"%string
            | Some ip => ip
            end in
  ∃ answer calls s',
    post req now s = Some (answer, calls, s')
    ∧ status answer ∈ [200; 400; 429; 500]%Z
    ∧ (Retry.invocations calls ≤ 3)%nat
    ∧ (status answer = 429%Z
       ↔ fst (Route.POST_admission ip (at_check now) (at_record now)
                (requestLog s))
         = Route.TooManyRequests)
    ∧ requestLog s'
      = snd (Route.POST_admission ip (at_check now) (at_record now)
               (requestLog s)).
Proof.
  intros ip.
  assert (Hip : ip = identity req).
  { unfold ip, identity. by destruct (x_forwarded_for req) as [[|c h]|]. }
  clearbody ip. subst ip.
  destruct (Nat.lt_ge_cases (length (kept req now s)) 10) as [Hlt|Hge].
  2:{ rewrite POST_when_refused, POST_admission_refused by done.
      do 3 eexists. split; [done|]. simpl.
      split; [by repeat constructor|]. split; [lia|]. by split. }
  rewrite POST_admission_accepted by done. simpl.
  assert (Hstatus : ∀ answer calls s',
            post req now s = Some (answer, calls, s') →
            (status answer = 200 ∨ status answer = 400
             ∨ status answer = 500)%Z →
            (Retry.invocations calls ≤ 3)%nat →
            requestLog s' = requestLog (recorded req now s) →
            ∃ answer calls s',
              post req now s = Some (answer, calls, s')
              ∧ status answer ∈ [200; 400; 429; 500]%Z
              ∧ (Retry.invocations calls ≤ 3)%nat
              ∧ (status answer = 429%Z
                 ↔ Route.Accepted = Route.TooManyRequests)
              ∧ requestLog s' = requestLog (recorded req now s)).
  { intros answer calls s' Hpost Hin Hcalls Hlog.
    exists answer, calls, s'. split; [done|]. split.
    { destruct Hin as [-> | [-> | ->]]; by repeat constructor. }
    split; [done|]. split; [|done]. split; [|done].
    intros H429. rewrite H429 in Hin. by destruct Hin as [?|[?|?]]. }
  destruct (json req) as [e|data] eqn:Hjson.
  { pose proof (POST_without_text req now s Hlt) as Ha.
    rewrite Hjson in Ha.
    apply (Hstatus _ _ _ (Ha I)); [by right; right|simpl; lia|done]. }
  destruct (accepted_text data) as [text|] eqn:Htext.
  2:{ pose proof (POST_without_text req now s Hlt) as Ha.
      rewrite Hjson in Ha.
      apply (Hstatus _ _ _ (Ha Htext)); [|simpl; lia|done].
      destruct data; (by right; right) || (by right; left). }
  pose proof (POST_text req now s data text Hlt Hjson Htext) as Hpost.
  destruct (Cache.get text (at_get now) (factCheckCache s)) as [[r|] c].
  { apply (Hstatus _ _ _ Hpost); [by left|simpl; lia|done]. }
  destruct (performFactCheck_cases text (provider s))
    as (x & k & Hx & Hk & Ht & _).
  rewrite Hx in Hpost. simpl in Hpost.
  assert (Retry.invocations (Retry.trace x) ≤ 3)%nat.
  { rewrite Ht, invocations_app, failed_attempts_invocations. simpl. lia. }
  destruct (Retry.result x) as [results|error];
    apply (Hstatus _ _ _ Hpost); try done; (by left) || (by right; right).
Qed.

End ParseFacts.

(* ===================================================================== *)
(** * Rendering the checked text *)
(* ===================================================================== *)

Section RenderFacts.
Import Text Component.
Abbreviation letters := String.list_ascii_of_string.

Lemma letters_app (s1 s2 : string) :
  letters (s1 +:+ s2) = letters s1 ++ letters s2.
Proof. induction s1 as [|c s1 IH]; simpl; [done|]. by rewrite IH. Qed.

Lemma letters_inj (s1 s2 : string) : letters s1 = letters s2 → s1 = s2.
Proof.
  intros Heq. rewrite <- (String.string_of_list_ascii_of_string s1),
    <- (String.string_of_list_ascii_of_string s2). by rewrite Heq.
Qed.

Lemma length_letters (s : string) : length (letters s) = String.length s.
Proof. induction s as [|c s IH]; simpl; [done|]. by rewrite IH. Qed.

Lemma letters_substring n m (s : string) :
  letters (String.substring n m s) = take m (drop n (letters s)).
Proof.
  revert n m. induction s as [|c s IH]; intros n m.
  - by destruct n, m.
  - destruct n as [|n]; simpl.
    + destruct m as [|m]; simpl; [done|]. by rewrite (IH 0%nat m).
    + apply IH.
Qed.

Lemma index_bounds n (sub s : string) k :
  String.index n sub s = Some k → (n ≤ k ≤ String.length s)%nat.
Proof.
  revert n k. induction s as [|c s IH]; intros n k; cbn [String.index].
  - destruct n; [|done]. destruct sub; [|done]. intros [= <-]. simpl. lia.
  - destruct n as [|n].
    + destruct (String.prefix sub (String c s)); [intros [= <-]; lia|].
      destruct (String.index 0 sub s) as [j|] eqn:Hj; [|done].
      intros [= <-]. specialize (IH _ _ Hj). simpl. lia.
    + destruct (String.index n sub s) as [j|] eqn:Hj; [|done].
      intros [= <-]. specialize (IH _ _ Hj). simpl. lia.
Qed.

(** Where [indexOf] finds its argument. *)
Lemma indexOf_found (s sub : string) (position : Z) :
  (0 ≤ position ≤ len s)%Z → (0 ≤ indexOf s sub position)%Z →
  ∃ k : nat,
    indexOf s sub position = Z.of_nat k
    ∧ (Z.to_nat position ≤ k)%nat
    ∧ (k + String.length sub ≤ String.length s)%nat
    ∧ letters sub = take (String.length sub) (drop k (letters s)).
Proof.
  unfold indexOf, len. intros Hpos.
  replace (Z.min (Z.max position 0) (Z.of_nat (String.length s)))
    with position by lia.
  destruct (String.index (Z.to_nat position) sub s) as [k|] eqn:Hk; [|lia].
  intros _. exists k. split; [done|].
  destruct (index_bounds _ _ _ _ Hk) as [H1 H2]. split; [done|].
  apply String.index_correct1 in Hk.
  assert (Hl : letters sub = take (String.length sub) (drop k (letters s)))
    by (by rewrite <- letters_substring, Hk).
  split; [|done].
  apply (f_equal length) in Hl.
  rewrite length_letters, length_take, length_drop, length_letters in Hl.
  lia.
Qed.

(** [slice] between two positions of the string, in order. *)
Lemma letters_slice (s : string) (i j : nat) :
  (i ≤ j ≤ String.length s)%nat →
  letters (slice s (Z.of_nat i) (Z.of_nat j))
  = take (j - i) (drop i (letters s)).
Proof.
  intros Hij. unfold slice, absolute, len.
  destruct (Z.ltb_spec (Z.of_nat i) 0); [lia|].
  destruct (Z.ltb_spec (Z.of_nat j) 0); [lia|].
  rewrite letters_substring. f_equal; [lia|f_equal; lia].
Qed.

Lemma take_take_drop {A : Type} (l : list A) (a b : nat) :
  take a l ++ take b (drop a l) = take (a + b) l.
Proof.
  revert l. induction a as [|a IH]; intros l; simpl; [by rewrite drop_0|].
  destruct l as [|x l]; simpl; [by rewrite take_nil|]. by rewrite IH.
Qed.

Lemma shown_text_app (els1 els2 : list element) :
  letters (shown_text (els1 ++ els2))
  = letters (shown_text els1) ++ letters (shown_text els2).
Proof.
  induction els1 as [|e els1 IH]; simpl; [done|].
  by rewrite !letters_app, IH, app_assoc.
Qed.

Lemma highlighted_app (els1 els2 : list element) :
  highlighted (els1 ++ els2) = highlighted els1 ++ highlighted els2.
Proof.
  induction els1 as [|[c|c r] els1 IH]; simpl; [done|done|]. by rewrite IH.
Qed.

(** The loop shows the input from [lastIndex] to where it stops. *)
Lemma highlight_shows (inputText : string) results (i : nat) :
  (i ≤ String.length inputText)%nat →
  located inputText results (Z.of_nat i) →
  ∃ j : nat,
    snd (highlight inputText results (Z.of_nat i)) = Z.of_nat j
    ∧ (i ≤ j ≤ String.length inputText)%nat
    ∧ letters (shown_text (fst (highlight inputText results (Z.of_nat i))))
      = take (j - i) (drop i (letters inputText)).
Proof.
  revert i. induction results as [|r results IH]; intros i Hi Hloc.
  - exists i. simpl. split; [done|]. split; [lia|].
    by rewrite Nat.sub_diag.
  - destruct Hloc as [Hfound Hloc].
    destruct (indexOf_found inputText (text r) (Z.of_nat i))
      as (k & Hk & Hik & Hkl & Hsub); [unfold len; lia|done|].
    cbn [highlight]. rewrite Hk in *.
    replace (Z.of_nat k + len (text r))%Z
      with (Z.of_nat (k + String.length (text r))) in *
      by (unfold len; lia).
    destruct (IH (k + String.length (text r))%nat Hkl Hloc)
      as (j & Hj & Hjl & Hshown).
    destruct (highlight inputText results
                (Z.of_nat (k + String.length (text r)))) as [els last].
    simpl in *. exists j. split; [done|]. split; [lia|].
    rewrite shown_text_app. simpl. rewrite letters_app, Hshown, Hsub.
    rewrite Nat2Z.id in Hik.
    assert (Hbefore :
      letters (shown_text
                 (if (Z.of_nat i <? Z.of_nat k)%Z
                  then [Plain (slice inputText (Z.of_nat i) (Z.of_nat k))]
                  else []))
      = take (k - i) (drop i (letters inputText))).
    { destruct (Z.ltb_spec (Z.of_nat i) (Z.of_nat k)); simpl.
      - rewrite letters_app, app_nil_r. apply letters_slice. lia.
      - replace (k - i)%nat with O by lia. done. }
    rewrite Hbefore.
    replace (drop k (letters inputText))
      with (drop (k - i) (drop i (letters inputText)))
      by (rewrite drop_drop; f_equal; lia).
    replace (drop (k + String.length (text r)) (letters inputText))
      with (drop (String.length (text r))
              (drop (k - i) (drop i (letters inputText))))
      by (rewrite !drop_drop; f_equal; lia).
    rewrite (take_take_drop (drop (k - i) _)).
    rewrite take_take_drop. f_equal. lia.
Qed.

(** X28 (the rendering shows the input).  When there is a result and
    every result's text is found in the input from where the previous one
    ended, the elements rendered, read one after the other, are the input
    text: nothing is lost, repeated or moved. *)
Theorem render_shows_input (inputText : string) results :
  results ≠ [] →
  located inputText results 0%Z →
  ∃ elements,
    renderFactCheckedText inputText results = Some elements
    ∧ shown_text elements = inputText.
Proof.
  intros Hne Hloc. unfold renderFactCheckedText.
  destruct results as [|r results]; [done|].
  change (length (r :: results) =? 0)%nat with false. cbv iota.
  destruct (highlight_shows inputText (r :: results) 0 ltac:(lia) Hloc)
    as (j & Hj & Hjl & Hshown).
  change (Z.of_nat 0) with 0%Z in *.
  destruct (highlight inputText (r :: results) 0) as [els last].
  simpl in Hj, Hshown. subst last. eexists. split; [done|].
  apply letters_inj. rewrite shown_text_app, Hshown, Nat.sub_0_r, drop_0.
  unfold len. destruct (Z.ltb_spec (Z.of_nat j)
                          (Z.of_nat (String.length inputText))); simpl.
  - rewrite letters_app, app_nil_r.
    rewrite (letters_slice inputText j (String.length inputText)) by lia.
    rewrite take_take_drop. apply take_ge. rewrite length_letters. lia.
  - rewrite app_nil_r, take_ge; [done|]. rewrite length_letters. lia.
Qed.

Lemma highlight_highlighted (inputText : string) results lastIndex :
  highlighted (fst (highlight inputText results lastIndex)) = results
  ∧ Forall (λ e, match e with
                 | Highlight colour r => colour = getResultColor (result r)
                 | Plain _ => True
                 end)
      (fst (highlight inputText results lastIndex)).
Proof.
  revert lastIndex. induction results as [|r results IH]; intros lastIndex.
  - by split.
  - cbn [highlight].
    destruct (IH (indexOf inputText (text r) lastIndex + len (text r))%Z)
      as [IH1 IH2].
    destruct (highlight inputText results _) as [els last]. simpl in *.
    rewrite highlighted_app. simpl. rewrite IH1. split.
    + by destruct (_ <? _)%Z.
    + apply Forall_app. split; [by destruct (_ <? _)%Z; repeat constructor|].
      by constructor.
Qed.

(** X29 (every result is highlighted once).  Without results the
    placeholder is rendered, whatever the input; otherwise the
    highlighted elements are the results, each once and in their order,
    each with the colour of its verdict, whether or not its text occurs
    in the input. *)
Theorem render_highlights (inputText : string) results :
  (renderFactCheckedText inputText results = None ↔ results = [])
  ∧ ∀ elements,
      renderFactCheckedText inputText results = Some elements →
      highlighted elements = results
      ∧ Forall (λ e, match e with
                     | Highlight colour r =>
                         colour = getResultColor (result r)
                     | Plain _ => True
                     end) elements.
Proof.
  unfold renderFactCheckedText. destruct results as [|r results].
  { split; [done|]. by intros elements [=]. }
  change (length (r :: results) =? 0)%nat with false. cbv iota.
  destruct (highlight_highlighted inputText (r :: results) 0) as [H1 H2].
  destruct (highlight inputText (r :: results) 0) as [els last].
  simpl in H1, H2. split; [done|]. intros elements [= <-].
  rewrite highlighted_app, H1. split.
  - destruct (_ <? _)%Z; simpl; by rewrite app_nil_r.
  - apply Forall_app. split; [done|].
    destruct (_ <? _)%Z; by repeat constructor.
Qed.

End RenderFacts.

(* ===================================================================== *)
(** * Instances of the further properties *)
(* ===================================================================== *)

Section MoreInstances.
Import Json FactCheck Fixture.
Local Open Scope Z_scope.

Abbreviation handle := (POST generateText JSON_parse TypeError_null).
Abbreviation check_facts := (performFactCheck generateText JSON_parse).

(** A provider that fails once: two calls, one delay, the results are
    answered and stored, the request is recorded. *)
Example POST_second_try :
  handle (ask "sky is green") morning (fresh 0)
  = Some (ok [good], [Retry.Invoke; Retry.Sleep 1000; Retry.Invoke],
          {| requestLog := {["10.0.0.1"%string := [60501]]};
             factCheckCache :=
               Cache.set "sky is green" [good] 64000
                 (Cache.new_Cache (Some 60));
             provider := 2%nat |}).
Proof. by vm_compute. Qed.

(** One [null] in the array spoils the answer, and a number is dropped
    without a word. *)
Example parse_null_and_number :
  @parse_response unit JSON_parse "[null, good]"
  = inl (Error "Failed to parse fact-check results: [null, good]")
  ∧ @parse_response unit JSON_parse "[good, 1]" = inr [good].
Proof. by vm_compute. Qed.

(** Results out of order: the second text is searched after the first
    and not found, and part of the input is shown twice. *)
Example render_out_of_order :
  Component.shown_text
    <$> Component.renderFactCheckedText "The sky is green today."
          (rev checked)
  = Some "The sky is green todaysky is greengreen today."%string.
Proof. by vm_compute. Qed.

Lemma cache_get_was_set_witness :
  fst (Cache.get "abc" 1000
         (Cache.run [(Cache.CallSet "abc"%string [1], 400)]
            (Cache.new_Cache (Some 1))))
  = Some [1]
  ∧ ∃ t0, (Cache.CallSet "abc"%string [1], t0)
          ∈ [(Cache.CallSet "abc"%string [1], 400)]
        ∧ 1000 - t0 ≤ default 60 (Some 1) * 60 * 1000.
Proof.
  assert (H : fst (Cache.get "abc" 1000
                     (Cache.run [(Cache.CallSet "abc"%string [1], 400)]
                        (Cache.new_Cache (Some 1))))
              = Some [1]) by reflexivity.
  split; [exact H|].
  exact (cache_get_was_set (Some 1) "abc"
           [(Cache.CallSet "abc"%string [1], 400)] 1000 [1] H).
Defined.

Lemma cache_expired_stays_absent_witness :
  Cache.cache (Cache.set "abc" [1; 2; 3] 0 Sample.one_minute) !! "abc"%string
  = Some {| Cache.value := [1; 2; 3]; Cache.timestamp := 0 |}
  ∧ 61000 - 0 > Cache.ttl (Cache.set "abc" [1; 2; 3] 0 Sample.one_minute)
  ∧ Forall (Cache.no_set "abc") elsewhere
  ∧ fst (Cache.get "abc" 30000
           (Cache.run elsewhere
              (snd (Cache.get "abc" 61000
                      (Cache.set "abc" [1; 2; 3] 0 Sample.one_minute)))))
    = None.
Proof.
  assert (H1 : Cache.cache (Cache.set "abc" [1; 2; 3] 0 Sample.one_minute)
               !! "abc"%string
               = Some {| Cache.value := [1; 2; 3]; Cache.timestamp := 0 |})
    by reflexivity.
  assert (H2 : 61000 - 0
               > Cache.ttl (Cache.set "abc" [1; 2; 3] 0 Sample.one_minute))
    by reflexivity.
  assert (H3 : Forall (Cache.no_set "abc") elsewhere)
    by (unfold elsewhere; repeat (constructor; [exact I || discriminate|]);
        constructor).
  split; [exact H1|]. split; [exact H2|]. split; [exact H3|].
  exact (cache_expired_stays_absent _ "abc" _ 61000 elsewhere 30000
           H1 H2 H3).
Defined.

Lemma cache_other_keys_frame_witness :
  Forall (History.untouched "abc") elsewhere
  ∧ Cache.cache
      (Cache.run elsewhere (Cache.set "abc" [1; 2; 3] 0 Sample.one_minute))
    !! "abc"%string
    = Cache.cache (Cache.set "abc" [1; 2; 3] 0 Sample.one_minute)
      !! "abc"%string
  ∧ fst (Cache.get "abc" 50000
           (Cache.run elsewhere
              (Cache.set "abc" [1; 2; 3] 0 Sample.one_minute)))
    = fst (Cache.get "abc" 50000
             (Cache.set "abc" [1; 2; 3] 0 Sample.one_minute)).
Proof.
  assert (H : Forall (History.untouched "abc") elsewhere)
    by (unfold elsewhere; repeat (constructor; [discriminate|]); constructor).
  split; [exact H|].
  exact (cache_other_keys_frame
           (Cache.set "abc" [1; 2; 3] 0 Sample.one_minute) "abc" elsewhere
           50000 H).
Defined.

Lemma retry_integral_budget_shape_witness :
  (Retry.maxRetries_of Sample.fact_check_options == inject_Z 3)%Q
  ∧ ∃ x, Retry.withRetry (Sample.flaky 1) Sample.fact_check_options 0%nat
         = Some x
       ∧ (Retry.trace x = []
          ∨ ∃ k, Retry.trace x
                 = Retry.failed_attempts
                     (Retry.backoffFactor_of Sample.fact_check_options)
                     (Retry.maxDelay_of Sample.fact_check_options) k
                     (Retry.initialDelay_of Sample.fact_check_options)
                   ++ [Retry.Invoke]
               ∧ Retry.invocations (Retry.trace x) = S k
               ∧ length (Retry.delays (Retry.trace x)) = k).
Proof.
  assert (H : (Retry.maxRetries_of Sample.fact_check_options
               == inject_Z 3)%Q) by reflexivity.
  split; [exact H|].
  exact (retry_integral_budget_shape (Sample.flaky 1) 3
           Sample.fact_check_options 0%nat H).
Defined.

Lemma fractional_budget_not_integral (z : Z) :
  ¬ (Retry.maxRetries_of Sample.fractional_budget == inject_Z z)%Q.
Proof. unfold Qeq. simpl. lia. Qed.

Lemma retry_fractional_budget_witness :
  Retry.always_fails Sample.failing
  ∧ (0 < Retry.maxRetries_of Sample.fractional_budget)%Q
  ∧ (∀ z : Z, ¬ (Retry.maxRetries_of Sample.fractional_budget
                  == inject_Z z)%Q)
  ∧ ∃ e, fst (Sample.failing
                (Retry.world_after Sample.failing
                   (Z.to_nat
                      (Qceiling
                         (Retry.maxRetries_of Sample.fractional_budget))
                    - 1) 0%nat))
         = inl e
       ∧ Retry.withRetry Sample.failing Sample.fractional_budget 0%nat
         = Some {| Retry.result := Retry.Throw (Some e);
                   Retry.trace :=
                     Retry.failed_attempts
                       (Retry.backoffFactor_of Sample.fractional_budget)
                       (Retry.maxDelay_of Sample.fractional_budget)
                       (Z.to_nat
                          (Qceiling
                             (Retry.maxRetries_of Sample.fractional_budget)))
                       (Retry.initialDelay_of Sample.fractional_budget);
                   Retry.world :=
                     Retry.world_after Sample.failing
                       (Z.to_nat
                          (Qceiling
                             (Retry.maxRetries_of Sample.fractional_budget)))
                       0%nat |}.
Proof.
  assert (H : (0 < Retry.maxRetries_of Sample.fractional_budget)%Q)
    by reflexivity.
  split; [exact failing_always_fails|]. split; [exact H|].
  split; [exact fractional_budget_not_integral|].
  exact (retry_fractional_budget Sample.failing Sample.fractional_budget
           0%nat failing_always_fails H fractional_budget_not_integral).
Defined.

Lemma retry_delays_nondecreasing_witness :
  (1 <= Retry.backoffFactor_of Sample.fact_check_options)%Q
  ∧ (0 <= Retry.initialDelay_of Sample.fact_check_options)%Q
  ∧ (Retry.initialDelay_of Sample.fact_check_options
     <= Retry.maxDelay_of Sample.fact_check_options)%Q
  ∧ ∃ x, Retry.withRetry Sample.failing Sample.fact_check_options 0%nat
         = Some x
       ∧ Sorted Qle (Retry.delays (Retry.trace x))
       ∧ Forall (λ d, Retry.initialDelay_of Sample.fact_check_options <= d
                      ∧ d <= Retry.maxDelay_of Sample.fact_check_options)%Q
           (Retry.delays (Retry.trace x)).
Proof.
  assert (H1 : (1 <= Retry.backoffFactor_of Sample.fact_check_options)%Q)
    by (vm_compute; discriminate).
  assert (H2 : (0 <= Retry.initialDelay_of Sample.fact_check_options)%Q)
    by (vm_compute; discriminate).
  assert (H3 : (Retry.initialDelay_of Sample.fact_check_options
                <= Retry.maxDelay_of Sample.fact_check_options)%Q)
    by (vm_compute; discriminate).
  split; [exact H1|]. split; [exact H2|]. split; [exact H3|].
  exact (retry_delays_nondecreasing Sample.failing Sample.fact_check_options
           0%nat H1 H2 H3).
Defined.

Lemma isRateLimited_checks_compose_witness :
  60500 ≤ 61000
  ∧ Route.isRateLimited "10.0.0.1" 61000
      (snd (Route.isRateLimited "10.0.0.1" 60500 Sample.busy_log))
    = Route.isRateLimited "10.0.0.1" 61000 Sample.busy_log.
Proof.
  assert (H : 60500 ≤ 61000) by lia.
  split; [exact H|].
  exact (isRateLimited_checks_compose "10.0.0.1" 60500 61000
           Sample.busy_log H).
Defined.

Lemma first_requests_accepted_witness :
  (length (default [] (Sample.busy_log !! "10.0.0.2"%string))
   + length erratic ≤ 10)%nat
  ∧ fst (History.admissions "10.0.0.2" erratic
           Sample.busy_log)
    = replicate (length erratic) Route.Accepted.
Proof.
  assert (H : (length (default [] (Sample.busy_log !! "10.0.0.2"%string))
               + length erratic ≤ 10)%nat)
    by (vm_compute; lia).
  split; [exact H|].
  exact (first_requests_accepted "10.0.0.2"
           erratic Sample.busy_log H).
Defined.

Lemma burst_monotone : History.monotone 0 burst.
Proof. unfold burst. simpl. repeat split; lia. Qed.

Lemma limiter_is_sliding_window_witness :
  History.monotone 0 burst
  ∧ fst (History.admissions "10.0.0.1" burst Sample.busy_log)
    = History.sliding_window
        (default [] (Sample.busy_log !! "10.0.0.1"%string)) burst.
Proof.
  split; [exact burst_monotone|].
  exact (limiter_is_sliding_window "10.0.0.1" burst Sample.busy_log 0
           burst_monotone).
Defined.

Lemma limiter_burst_witness :
  Sample.busy_log !! "10.0.0.9"%string = None
  ∧ History.monotone 0 burst
  ∧ Forall (λ r, fst r < 0 + 60000) burst
  ∧ fst (History.admissions "10.0.0.9" burst Sample.busy_log)
    = replicate (min 10 (length burst)) Route.Accepted
      ++ replicate (length burst - 10) Route.TooManyRequests.
Proof.
  assert (H1 : Sample.busy_log !! "10.0.0.9"%string = None) by reflexivity.
  assert (H3 : Forall (λ r, fst r < 0 + 60000) burst)
    by (unfold burst; repeat (constructor; [simpl; lia|]); constructor).
  split; [exact H1|]. split; [exact burst_monotone|]. split; [exact H3|].
  exact (limiter_burst "10.0.0.9" burst Sample.busy_log 0 H1 burst_monotone
           H3).
Defined.

Lemma parse_response_results_witness :
  @parse_response unit JSON_parse "Take this: [good, 1] and that" = inr [good]
  ∧ Forall well_formed [good]
  ∧ ∃ items,
      match Text.match_array "Take this: [good, 1] and that" with
      | Some m => JSON_parse m = Some (JArray items)
      | None => items = []
      end
      ∧ [good] `sublist_of` items
      ∧ (∀ v, v ∈ [good] ↔ v ∈ items ∧ well_formed v)
      ∧ ([good] = [] → items = []).
Proof.
  assert (H : @parse_response unit JSON_parse "Take this: [good, 1] and that"
              = inr [good]) by reflexivity.
  split; [exact H|].
  exact (parse_response_results JSON_parse
           "Take this: [good, 1] and that" [good] H).
Defined.

Lemma parse_response_no_array_witness :
  (¬ In "["%char (String.list_ascii_of_string "I cannot help with that.")
   ∨ ∃ pre rest, "I cannot help with that."%string = pre +:+ String "[" rest
               ∧ ¬ In "["%char (String.list_ascii_of_string pre)
               ∧ ¬ In "]"%char (String.list_ascii_of_string rest))
  ∧ Text.match_array "I cannot help with that." = None
  ∧ @parse_response unit JSON_parse "I cannot help with that." = inr [].
Proof.
  assert (H : ¬ In "["%char
                (String.list_ascii_of_string "I cannot help with that.")).
  { simpl. intros H.
    repeat (destruct H as [H|H]; [discriminate H|]). exact H. }
  split; [left; exact H|].
  exact (parse_response_no_array JSON_parse "I cannot help with that."
           (or_introl H)).
Defined.

Lemma POST_refused_witness :
  (10 ≤ length (Route.recent (at_check morning)
                  (default []
                     (requestLog busy !! identity (ask "sky is green")))))%nat
  ∧ handle (ask "sky is green") morning busy
    = Some (too_many_requests, [],
            {| requestLog :=
                 <[identity (ask "sky is green") :=
                     Route.recent (at_check morning)
                       (default []
                          (requestLog busy
                           !! identity (ask "sky is green")))]>
                   (requestLog busy);
               factCheckCache := factCheckCache busy;
               provider := provider busy |}).
Proof.
  assert (H : (10 ≤ length (Route.recent (at_check morning)
                 (default []
                    (requestLog busy
                     !! identity (ask "sky is green")))))%nat)
    by (vm_compute; lia).
  split; [exact H|].
  exact (POST_refused generateText JSON_parse TypeError_null
           (ask "sky is green") morning busy H).
Defined.

Lemma POST_unusable_body_witness :
  (length (Route.recent (at_check morning)
             (default [] (requestLog busy !! identity empty_body)))
   < 10)%nat
  ∧ accepted_text (JObject []) = None
  ∧ ∃ answer,
      handle empty_body morning busy
      = Some (answer, [],
              {| requestLog :=
                   <[identity empty_body :=
                       Route.recent (at_check morning)
                         (default []
                            (requestLog busy !! identity empty_body))
                       ++ [at_record morning]]> (requestLog busy);
                 factCheckCache := factCheckCache busy;
                 provider := provider busy |})
      ∧ (status answer = 400 ∨ status answer = 500)
      ∧ (status answer = 400
         ↔ ∃ data, json empty_body = inr data ∧ data ≠ JNull).
Proof.
  assert (H : (length (Route.recent (at_check morning)
                 (default [] (requestLog busy !! identity empty_body)))
               < 10)%nat) by (vm_compute; lia).
  split; [exact H|]. split; [reflexivity|].
  exact (POST_unusable_body generateText JSON_parse TypeError_null
           empty_body morning busy H eq_refl).
Defined.

Lemma POST_cache_hit_witness :
  (length (Route.recent (at_check morning)
             (default []
                (requestLog warm !! identity (ask "sky is green"))))
   < 10)%nat
  ∧ accepted_text (JObject [("text"%string, JString "sky is green")])
    = Some "sky is green"%string
  ∧ fst (Cache.get "sky is green" (at_get morning) (factCheckCache warm))
    = Some [good]
  ∧ handle (ask "sky is green") morning warm
    = Some (ok [good], [],
            {| requestLog :=
                 <[identity (ask "sky is green") :=
                     Route.recent (at_check morning)
                       (default []
                          (requestLog warm
                           !! identity (ask "sky is green")))
                     ++ [at_record morning]]> (requestLog warm);
               factCheckCache := factCheckCache warm;
               provider := provider warm |}).
Proof.
  assert (H : (length (Route.recent (at_check morning)
                 (default []
                    (requestLog warm !! identity (ask "sky is green"))))
               < 10)%nat) by (vm_compute; lia).
  split; [exact H|]. split; [reflexivity|]. split; [reflexivity|].
  exact (POST_cache_hit generateText JSON_parse TypeError_null
           (ask "sky is green") morning warm _ "sky is green" [good]
           H eq_refl eq_refl eq_refl).
Defined.

Lemma POST_failure_not_cached_witness :
  (length (Route.recent (at_check morning)
             (default []
                (requestLog (fresh 2) !! identity (ask "sky is green"))))
   < 10)%nat
  ∧ fst (Cache.get "sky is green" (at_get morning)
           (factCheckCache (fresh 2))) = None
  ∧ check_facts "sky is green" (provider (fresh 2)) = Some gives_up
  ∧ ∃ s', handle (ask "sky is green") morning (fresh 2)
          = Some (@failure unit
                    (Some
                       (Error "Failed to parse fact-check results: [sorry]")),
                  Retry.trace gives_up, s')
        ∧ provider s' = Retry.world gives_up
        ∧ requestLog s'
          = <[identity (ask "sky is green") :=
                Route.recent (at_check morning)
                  (default []
                     (requestLog (fresh 2)
                      !! identity (ask "sky is green")))
                ++ [at_record morning]]> (requestLog (fresh 2))
        ∧ ∀ t, fst (Cache.get "sky is green" t (factCheckCache s')) = None.
Proof.
  assert (H : (length (Route.recent (at_check morning)
                 (default []
                    (requestLog (fresh 2)
                     !! identity (ask "sky is green"))))
               < 10)%nat) by (vm_compute; lia).
  assert (Hx : check_facts "sky is green" (provider (fresh 2))
               = Some gives_up) by reflexivity.
  split; [exact H|]. split; [reflexivity|]. split; [exact Hx|].
  exact (POST_failure_not_cached generateText JSON_parse TypeError_null
           (ask "sky is green") morning (fresh 2) _ "sky is green"
           gives_up _ H eq_refl eq_refl eq_refl Hx eq_refl).
Defined.

Lemma POST_success_cached_witness :
  (length (Route.recent (at_check morning)
             (default []
                (requestLog (fresh 0) !! identity (ask "sky is green"))))
   < 10)%nat
  ∧ fst (Cache.get "sky is green" (at_get morning)
           (factCheckCache (fresh 0))) = None
  ∧ check_facts "sky is green" (provider (fresh 0)) = Some second_try
  ∧ ∃ s', handle (ask "sky is green") morning (fresh 0)
          = Some (ok [good], Retry.trace second_try, s')
        ∧ provider s' = Retry.world second_try
        ∧ ∀ req' now' data',
            (length (Route.recent (at_check now')
                       (default [] (requestLog s' !! identity req')))
             < 10)%nat →
            json req' = inr data' →
            accepted_text data' = Some "sky is green"%string →
            at_get now' - at_set morning
            ≤ Cache.ttl (factCheckCache (fresh 0)) →
            handle req' now' s'
            = Some (ok [good], [],
                    {| requestLog :=
                         <[identity req' :=
                             Route.recent (at_check now')
                               (default []
                                  (requestLog s' !! identity req'))
                             ++ [at_record now']]> (requestLog s');
                       factCheckCache := factCheckCache s';
                       provider := provider s' |}).
Proof.
  assert (H : (length (Route.recent (at_check morning)
                 (default []
                    (requestLog (fresh 0)
                     !! identity (ask "sky is green"))))
               < 10)%nat) by (vm_compute; lia).
  assert (Hx : check_facts "sky is green" (provider (fresh 0))
               = Some second_try) by reflexivity.
  split; [exact H|]. split; [reflexivity|]. split; [exact Hx|].
  exact (POST_success_cached generateText JSON_parse TypeError_null
           (ask "sky is green") morning (fresh 0) _ "sky is green"
           second_try [good] H eq_refl eq_refl eq_refl Hx eq_refl).
Defined.

Lemma render_shows_input_witness :
  checked ≠ []
  ∧ Component.located "The sky is green today." checked 0
  ∧ ∃ elements,
      Component.renderFactCheckedText "The sky is green today." checked
      = Some elements
      ∧ Component.shown_text elements = "The sky is green today."%string.
Proof.
  assert (H1 : checked ≠ []) by discriminate.
  assert (H2 : Component.located "The sky is green today." checked 0).
  { split; [by vm_compute|]. split; [by vm_compute|exact I]. }
  split; [exact H1|]. split; [exact H2|].
  exact (render_shows_input "The sky is green today." checked H1 H2).
Defined.

End MoreInstances.
